(** * Spike GEMM (snngrow_backend/spikegemm): thread, warp and threadblock level

    A shallow embedding of

    - [gemm/thread/mma_spike.h]: the two [MmaGeneric] specializations for a
      binary operand and the two [Mma] dispatch wrappers,
    - [gemm/warp/spike_mma_simt.h]: [SpikeMmaSimt] ([use_dp4a], [dp4a_type],
      [transform]),
    - [gemm/threadblock/spike_mma.h]: the build-time precondition of the SIMT
      specialization of [SpikeMma],

    together with the properties the specification states about them.

    Fragments are flat arrays ([Array<Element, N>]), modelled as lists.  The
    accumulate routine receives its four fragments by reference, so the
    fragments live in a register state indexed by names, and a call receives
    names: two references of the same element type may name one fragment. *)

From stdpp Require Import base option list strings gmap.
From Stdlib Require Import ZArith.

(** ** Pieces of the base tiling framework the code relies on *)

(** [gemm::GemmShape<M, N, K>] with its derived extents. *)
Record GemmShape : Set := MkGemmShape { kM : nat; kN : nat; kK : nat }.

Definition kMN (s : GemmShape) : nat := kM s * kN s.
Definition kMK (s : GemmShape) : nat := kM s * kK s.
Definition kKN (s : GemmShape) : nat := kK s * kN s.

(** [MatrixCoord(row, column)]. *)
Record MatrixCoord : Set := MkCoord { row : nat; column : nat }.

(** The two canonical matrix layouts a thread tile is addressed with.
    [packed extent] is the layout of a densely stored matrix of that extent:
    the leading dimension is the number of columns (row-major) or of rows
    (column-major); [offset] is the layout's coordinate-to-index function. *)
Inductive Layout : Set := RowMajor | ColumnMajor.

Record PackedLayout : Set := MkPacked { kind : Layout; stride : nat }.

Definition packed (L : Layout) (extent : MatrixCoord) : PackedLayout :=
  match L with
  | RowMajor => MkPacked RowMajor (column extent)
  | ColumnMajor => MkPacked ColumnMajor (row extent)
  end.

Definition offset (l : PackedLayout) (c : MatrixCoord) : nat :=
  match kind l with
  | RowMajor => row c * stride l + column c
  | ColumnMajor => column c * stride l + row c
  end.

(** Names of the fragments held in registers. *)
Definition loc : Set := nat.

(** [TensorRef<Element, Layout>]: a borrowed pointer to a fragment's storage
    and the layout it is addressed with. *)
Record TensorRef : Set := MkRef { ptr : loc; ref_layout : PackedLayout }.

(** The register state: one file for the fragments of operand A, one for
    those of operand B and one for the accumulators.  The accumulate routine
    takes D by mutable reference and C by const reference, both of type
    [FragmentC], so the two names may denote one accumulator.  The operand
    fragments are objects of their own: the warp level passes [a] and [b] by
    value, so the thread level always receives fresh copies of them. *)
Record RegState (EA EB EC : Type) : Type := MkRegs {
  regsA : gmap loc (list EA);
  regsB : gmap loc (list EB);
  regsC : gmap loc (list EC)
}.
Arguments MkRegs {EA EB EC} _ _ _.
Arguments regsA {EA EB EC} _.
Arguments regsB {EA EB EC} _.
Arguments regsC {EA EB EC} _.

(** ** Loops *)

(** A loop whose body may fail: the body is run on each index in turn. *)
Fixpoint for_each {I S : Type} (body : I → S → option S) (idx : list I) (s : S)
  : option S :=
  match idx with
  | [] => Some s
  | i :: idx' => s' ← body i s; for_each body idx' s'
  end.

(** [for (int i = 0; i < count; ++i) body(i)]. *)
Definition for_range {S : Type} (count : nat) (body : nat → S → option S)
  : S → option S :=
  for_each body (seq 0 count).

(** ** Thread level: [gemm/thread/mma_spike.h] *)

Section MmaGeneric.
Context {ElementA ElementB ElementC : Type}.

(** The leaf instruction [arch::Mma<GemmShape<1,1,1>, 1, ...>], called as
    [mma_op(d, a, b, d)]: from the scalars [a], [b] and the accumulator it
    gives the new accumulator. *)
Variable mma_op : ElementA → ElementB → ElementC → ElementC.

Variable Shape : GemmShape.
Variables LayoutA LayoutB LayoutC : Layout.

Local Abbreviation State := (RegState ElementA ElementB ElementC).

(** [ref.at(coord)] for the three operand kinds; reading outside the
    fragment's storage is undefined and modelled as failure. *)
Definition at_A (st : State) (r : TensorRef) (c : MatrixCoord)
  : option ElementA :=
  frag ← regsA st !! ptr r; frag !! offset (ref_layout r) c.

Definition at_B (st : State) (r : TensorRef) (c : MatrixCoord)
  : option ElementB :=
  frag ← regsB st !! ptr r; frag !! offset (ref_layout r) c.

Definition at_C (st : State) (r : TensorRef) (c : MatrixCoord)
  : option ElementC :=
  frag ← regsC st !! ptr r; frag !! offset (ref_layout r) c.

(** [ref.at(coord) = v] on the accumulator file. *)
Definition set_at_C (st : State) (r : TensorRef) (c : MatrixCoord)
    (v : ElementC) : option State :=
  frag ← regsC st !! ptr r;
  if decide (offset (ref_layout r) c < length frag)
  then Some (MkRegs (regsA st) (regsB st)
               (<[ptr r := <[offset (ref_layout r) c := v]> frag]> (regsC st)))
  else None.

(** The body of the innermost loop once the row index is chosen: read the
    three scalars, run the leaf instruction, write the accumulator back. *)
Definition mma_cell (d_ref a_ref b_ref : TensorRef) (m n k : nat)
    (st : State) : option State :=
  let mn := MkCoord m n in
  let mk := MkCoord m k in
  let kn := MkCoord k n in
  d ← at_C st d_ref mn;
  a ← at_A st a_ref mk;
  b ← at_B st b_ref kn;
  set_at_C st d_ref mn (mma_op a b d).

(** [int m_serpentine = (n % 2) ? (Shape::kM - 1 - m) : m;] *)
Definition m_serpentine (n m : nat) : nat :=
  if decide (n `mod` 2 ≠ 0) then kM Shape - 1 - m else m.

(** The loop nest of [operator()], over any per-cell action. *)
Definition loop_nest {S : Type} (cell : nat → nat → nat → S → option S)
  : S → option S :=
  for_range (kK Shape) (λ k,
    for_range (kN Shape) (λ n,
      for_range (kM Shape) (λ m,
        cell (m_serpentine n m) n k))).

(** The same nest with the row index always ascending (the natural
    row-major traversal the serpentine one is compared with). *)
Definition loop_nest_natural {S : Type}
    (cell : nat → nat → nat → S → option S) : S → option S :=
  for_range (kK Shape) (λ k,
    for_range (kN Shape) (λ n,
      for_range (kM Shape) (λ m,
        cell m n k))).

Definition a_ref (A : loc) : TensorRef :=
  MkRef A (packed LayoutA (MkCoord (kM Shape) (kK Shape))).
Definition b_ref (B : loc) : TensorRef :=
  MkRef B (packed LayoutB (MkCoord (kK Shape) (kN Shape))).
Definition d_ref (D : loc) : TensorRef :=
  MkRef D (packed LayoutC (MkCoord (kM Shape) (kN Shape))).

(** [D = C;] *)
Definition copy_accumulators (D C : loc) (st : State) : option State :=
  c ← regsC st !! C;
  Some (MkRegs (regsA st) (regsB st) (<[D := c]> (regsC st))).

(** [MmaGeneric<...>::operator()(D, A, B, C)]. *)
Definition MmaGeneric_call (D A B C : loc) (st : State) : option State :=
  st0 ← copy_accumulators D C st;
  loop_nest (mma_cell (d_ref D) (a_ref A) (b_ref B)) st0.

(** The same routine run in the natural traversal order. *)
Definition MmaGeneric_call_natural (D A B C : loc) (st : State)
  : option State :=
  st0 ← copy_accumulators D C st;
  loop_nest_natural (mma_cell (d_ref D) (a_ref A) (b_ref B)) st0.

(** [Mma<...>::operator()(D, A, B, C)]: instantiate [MmaGeneric] and call
    it. *)
Definition Mma_call (D A B C : loc) (st : State) : option State :=
  let mma := MmaGeneric_call in
  mma D A B C st.



End MmaGeneric.

(** *** The cell updates seen from the accumulator fragment alone

    With the operand fragments [fa] and [fb] fixed, one cell update is a
    function of the accumulator fragment. *)
Section FragmentView.
Context {ElementA ElementB ElementC : Type}.
Variable mma_op : ElementA → ElementB → ElementC → ElementC.

Definition frag_cell (la lb lc : PackedLayout)
    (fa : list ElementA) (fb : list ElementB) (m n k : nat)
    (fd : list ElementC) : option (list ElementC) :=
  d ← fd !! offset lc (MkCoord m n);
  a ← fa !! offset la (MkCoord m k);
  b ← fb !! offset lb (MkCoord k n);
  Some (<[offset lc (MkCoord m n) := mma_op a b d]> fd).

(** The state in which the fragment named [D] is replaced. *)
Definition put_C (D : loc) (fd : list ElementC)
    (st : RegState ElementA ElementB ElementC)
  : RegState ElementA ElementB ElementC :=
  MkRegs (regsA st) (regsB st) (<[D := fd]> (regsC st)).

(** A function of the three fragments named [A], [B] and [D], run on the
    register state: it fails when a name is dangling, and writes its result
    back to [D]. *)
Definition on_fragments (D A B : loc)
    (f : list ElementA → list ElementB → list ElementC
         → option (list ElementC))
    (st : RegState ElementA ElementB ElementC)
  : option (RegState ElementA ElementB ElementC) :=
  fd ← regsC st !! D;
  fa ← regsA st !! A;
  fb ← regsB st !! B;
  fd' ← f fa fb fd;
  Some (put_C D fd' st).

(** The accumulator of cell [(m, n)] after the first [j] values of [k]. *)
Definition accumulate_k (a : nat → nat → ElementA) (b : nat → nat → ElementB)
    (c : nat → nat → ElementC) (j m n : nat) : ElementC :=
  foldl (λ acc k, mma_op (a m k) (b k n) acc) (c m n) (seq 0 j).
End FragmentView.

(** [frag] stores an [M]-by-[N] matrix under layout [L], and [elem] is its
    entry function. *)
Definition holds {T : Type} (L : Layout) (M N : nat) (frag : list T)
    (elem : nat → nat → T) : Prop :=
  length frag = M * N ∧
  ∀ m n, m < M → n < N →
    frag !! offset (packed L (MkCoord M N)) (MkCoord m n) = Some (elem m n).

(** The entry function of a fragment. *)
Definition entry {T : Type} `{Inhabited T} (L : Layout) (M N : nat)
    (frag : list T) (m n : nat) : T :=
  frag !!! offset (packed L (MkCoord M N)) (MkCoord m n).

(** The entry function of a matrix written as a list of rows. *)
Definition of_rows {T : Type} `{Inhabited T} (rows : list (list T))
    (m n : nat) : T :=
  (rows !!! m) !!! n.

(** *** Traversal order, as the specification words it *)

(** For even [n] the rows are taken upwards, for odd [n] downwards. *)
Definition row_order (M n : nat) : list nat :=
  if Nat.even n then seq 0 M else reverse (seq 0 M).


(** *** The leaf instruction for a binary operand *)

Section Leaf.
Context {T : Type}.
Variable zero : T.
Variable add : T → T → T.

(** Modelled from the spec: the leaf scalar instruction
    [arch::Mma<GemmShape<1,1,1>, 1, bool, ...>] of [arch/mma_spike.h],
    which is not among the sources.  When the binary operand's bit is 1
    the other operand's scalar is added into the accumulator; otherwise
    the accumulator is left unchanged. *)
Definition arch_Mma_boolA (a : bool) (b : T) (c : T) : T :=
  if a then add c b else c.

(** Modelled from the spec: the same leaf instruction with the binary
    operand on the B side. *)
Definition arch_Mma_boolB (a : T) (b : bool) (c : T) : T :=
  if b then add c a else c.

(** [Σ_{k < count} f k]. *)
Definition sum_over (count : nat) (f : nat → T) : T :=
  foldr (λ k acc, add (f k) acc) zero (seq 0 count).

(** The two [MmaGeneric] specializations and the two [Mma] wrappers. *)
Definition MmaGeneric_boolA_call := MmaGeneric_call arch_Mma_boolA.
Definition MmaGeneric_boolB_call := MmaGeneric_call arch_Mma_boolB.
Definition Mma_boolA_call := Mma_call arch_Mma_boolA.
Definition Mma_boolB_call := Mma_call arch_Mma_boolB.
End Leaf.

(** ** Warp level: [gemm/warp/spike_mma_simt.h] *)

(** Element types and layouts as template arguments. *)
Inductive ElementTag : Set :=
  | bool_t | int8_t | uint8_t | int32_t | half_t | bfloat16_t | float_t
  | double_t.

Inductive LayoutTag : Set :=
  | layout_RowMajor
  | layout_ColumnMajor
  | layout_RowMajorInterleaved (interleave : nat)
  | layout_ColumnMajorInterleaved (interleave : nat)
  | layout_AffineRankN (rank : nat).

#[global] Instance ElementTag_eq_dec : EqDecision ElementTag.
Proof. solve_decision. Defined.

#[global] Instance LayoutTag_eq_dec : EqDecision LayoutTag.
Proof. solve_decision. Defined.

(** [platform::is_same<X, Y>::value]. *)
Definition is_same {A : Type} `{EqDecision A} (x y : A) : bool :=
  bool_decide (x = y).

Section SpikeMmaSimt.
Variables LayoutA LayoutB : LayoutTag.
Variables ElementA ElementB : ElementTag.

Definition ThreadLayoutA : LayoutTag :=
  if is_same (layout_ColumnMajorInterleaved 4) LayoutA then layout_ColumnMajor
  else if is_same (layout_RowMajorInterleaved 4) LayoutA then layout_RowMajor
  else LayoutA.

Definition ThreadLayoutB : LayoutTag :=
  if is_same (layout_ColumnMajorInterleaved 4) LayoutB then layout_ColumnMajor
  else if is_same (layout_RowMajorInterleaved 4) LayoutB then layout_RowMajor
  else LayoutB.

Definition use_dp4a : bool :=
  (is_same (layout_ColumnMajorInterleaved 4) LayoutA
   || is_same (layout_RowMajorInterleaved 4) LayoutA)
  && is_same ElementA int8_t
  && is_same ElementB int8_t.

Definition dp4a_type : ElementTag :=
  if use_dp4a then int8_t else bool_t.
End SpikeMmaSimt.

(** [SpikeMmaSimt::transform(dst_A, dst_B, A, B)]: [dst_A = A; dst_B = B;]. *)
Definition transform {EA EB EC : Type} (dst_A dst_B A B : loc)
    (st : RegState EA EB EC) : option (RegState EA EB EC) :=
  a ← regsA st !! A;
  let st1 := MkRegs (<[dst_A := a]> (regsA st)) (regsB st) (regsC st) in
  b ← regsB st1 !! B;
  Some (MkRegs (regsA st1) (<[dst_B := b]> (regsB st1)) (regsC st1)).

(** ** Threadblock level: [gemm/threadblock/spike_mma.h] *)

Inductive OperatorClass : Set :=
  | OpClassSimt | OpClassTensorOp | OpClassWmmaTensorOp.

Inductive SharedMemoryClearOption : Set := kNone | kZfill | kClearLastStage.

#[global] Instance OperatorClass_eq_dec : EqDecision OperatorClass.
Proof. solve_decision. Defined.

#[global] Instance SharedMemoryClearOption_eq_dec :
  EqDecision SharedMemoryClearOption.
Proof. solve_decision. Defined.

(** The template arguments of [SpikeMma] that decide which definition is
    instantiated and whether its assertion holds. *)
Record SpikeMmaArgs : Set := MkSpikeMmaArgs {
  LayoutC_ : LayoutTag;
  OperatorClass_ : OperatorClass;
  Stages : nat;
  AccumulatorsInRowMajor : bool;
  SharedMemoryClear : SharedMemoryClearOption
}.

(** What instantiating [SpikeMma] with given arguments comes to: the primary
    template is declared without a definition; the SIMT specialization starts
    with a [static_assert] and then assembles its components. *)
Inductive Instantiation : Set :=
  | Undefined_primary_template
  | Static_assert_failed (message : string)
  | Assembled.

(** The partial specialization matches [arch::OpClassSimt], 2 stages,
    [AccumulatorsInRowMajor = false] and [SharedMemoryClearOption::kNone]. *)
Definition simt_specialization (args : SpikeMmaArgs) : bool :=
  is_same (OperatorClass_ args) OpClassSimt
  && bool_decide (Stages args = 2)
  && negb (AccumulatorsInRowMajor args)
  && is_same (SharedMemoryClear args) kNone.

Definition SpikeMma (args : SpikeMmaArgs) : Instantiation :=
  if simt_specialization args then
    if is_same (LayoutC_ args) layout_RowMajor
       || is_same (LayoutC_ args) (layout_AffineRankN 2)
    then Assembled
    else Static_assert_failed "simt epilogue must be row major"
  else Undefined_primary_template.

(** ** Warp level: the accumulate call of [SpikeMmaSimt] *)

(** [ComplexTransform::kNone] and [ComplexTransform::kConjugate]. *)
Inductive ComplexTransform : Set :=
  | ComplexTransform_kNone | ComplexTransform_kConjugate.

#[global] Instance ComplexTransform_eq_dec : EqDecision ComplexTransform.
Proof. solve_decision. Defined.

(** The policy [MmaSimtPolicy], as far as the warp level reads it:
    [Policy::WarpShape::kRow], [Policy::WarpShape::kColumn] and
    [Policy::LaneMmaShape]. *)
Record MmaSimtPolicy : Set := MkPolicy {
  WarpShape_kRow : nat;
  WarpShape_kColumn : nat;
  LaneMmaShape : GemmShape
}.

(** The shape argument of [ThreadMma]:
    [GemmShape<Shape::kM / Policy::WarpShape::kRow,
               Shape::kN / Policy::WarpShape::kColumn,
               Policy::LaneMmaShape::kK>]. *)
Definition ThreadMmaShape (Shape : GemmShape) (Policy : MmaSimtPolicy)
  : GemmShape :=
  MkGemmShape (kM Shape / WarpShape_kRow Policy)
              (kN Shape / WarpShape_kColumn Policy)
              (kK (LaneMmaShape Policy)).

(** The thread-level layouts whose addressing is modelled; the others are
    outside this development. *)
Definition thread_addressing (L : LayoutTag) : option Layout :=
  match L with
  | layout_RowMajor => Some RowMajor
  | layout_ColumnMajor => Some ColumnMajor
  | _ => None
  end.

Section SpikeMmaSimtCall.
Context {ElementA ElementB ElementC : Type}.

(** The leaf instruction of the thread level, and the framework's
    [conjugate<FragmentA>] and [conjugate<FragmentB>]. *)
Variable mma_op : ElementA → ElementB → ElementC → ElementC.
Variable conj_a : list ElementA → list ElementA.
Variable conj_b : list ElementB → list ElementB.

Variable Shape : GemmShape.
Variable Policy : MmaSimtPolicy.
Variables LayoutA LayoutB LayoutC : LayoutTag.
Variables kTransformA kTransformB : ComplexTransform.

(** [SpikeMmaSimt::operator()(d, a, b, c, group_idx)] on the binary-operand
    path, where [ThreadMma] is one of the two [Mma] wrappers.  [d] and [c]
    are references; [a] and [b] are passed by value: they are locals of the
    call, stored under names not in use and gone when the call returns. *)
Definition SpikeMmaSimt_call (d : loc) (a : list ElementA)
    (b : list ElementB) (c : loc) (group_idx : Z)
    (st : RegState ElementA ElementB ElementC)
  : option (RegState ElementA ElementB ElementC) :=
  la ← thread_addressing (ThreadLayoutA LayoutA);
  lb ← thread_addressing (ThreadLayoutB LayoutB);
  lc ← thread_addressing LayoutC;
  let a := if decide (kTransformA = ComplexTransform_kConjugate)
           then conj_a a else a in
  let b := if decide (kTransformB = ComplexTransform_kConjugate)
           then conj_b b else b in
  let local_a := fresh (dom (regsA st)) in
  let local_b := fresh (dom (regsB st)) in
  let st1 := MkRegs (<[local_a := a]> (regsA st))
                    (<[local_b := b]> (regsB st)) (regsC st) in
  st2 ← Mma_call mma_op (ThreadMmaShape Shape Policy) la lb lc
          d local_a local_b c st1;
  Some (MkRegs (delete local_a (regsA st2)) (delete local_b (regsB st2))
               (regsC st2)).
End SpikeMmaSimtCall.

(** A layout addresses an [M]-by-[N] tile in a fragment of [size] elements
    one to one: every coordinate of the tile has an index below [size], two
    coordinates never share an index, and every index below [size] belongs
    to a coordinate. *)
Definition addresses_tile (l : PackedLayout) (M N size : nat) : Prop :=
  (∀ m n, m < M → n < N → offset l (MkCoord m n) < size)
  ∧ (∀ m n m' n', m < M → n < N → m' < M → n' < N →
       offset l (MkCoord m n) = offset l (MkCoord m' n') → m = m' ∧ n = n')
  ∧ (∀ i, i < size → ∃ m n, m < M ∧ n < N ∧ offset l (MkCoord m n) = i).

(** ** Example register states

    Fragment 1 holds the binary matrix [[1,0],[0,1]], fragment 2 the matrix
    [[2,3],[4,5]] and fragment 3 a zero accumulator, all row-major; fragment
    0 is a second accumulator. *)
Definition example_regs_boolA : RegState bool Z Z :=
  MkRegs {[1 := [true; false; false; true]]}
         {[2 := [2; 3; 4; 5]%Z]}
         {[3 := [0; 0; 0; 0]%Z; 0 := [9; 9; 9; 9]%Z]}.

Definition example_regs_boolB : RegState Z bool Z :=
  MkRegs {[2 := [2; 3; 4; 5]%Z]}
         {[1 := [true; false; false; true]]}
         {[3 := [0; 0; 0; 0]%Z; 0 := [9; 9; 9; 9]%Z]}.

(** A second state, whose operands agree with those of [example_regs_boolA]
    on row 0 of A, on column 0 of B and on cell (0, 0) of C only. *)
Definition example_regs_other : RegState bool Z Z :=
  MkRegs {[1 := [true; false; true; true]]}
         {[2 := [2; 7; 4; 8]%Z]}
         {[3 := [0; 5; 6; 7]%Z]}.

(** A state whose binary operand has no bit set. *)
Definition example_regs_no_spike : RegState bool Z Z :=
  MkRegs {[1 := [false; false; false; false]]}
         {[2 := [2; 3; 4; 5]%Z]}
         {[3 := [1; 2; 3; 4]%Z; 0 := [9; 9; 9; 9]%Z]}.

(** A state that also holds the two K-halves of the operands of
    [example_regs_boolA]: fragments 4 and 5 the columns of A, fragments 6
    and 7 the rows of B. *)
Definition example_regs_split : RegState bool Z Z :=
  MkRegs {[1 := [true; false; false; true];
           4 := [true; false]; 5 := [false; true]]}
         {[2 := [2; 3; 4; 5]%Z; 6 := [2; 3]%Z; 7 := [4; 5]%Z]}
         {[3 := [0; 0; 0; 0]%Z; 0 := [9; 9; 9; 9]%Z]}.

(** * Properties *)

(** ** Loops *)

Section ForEach.
Context {I S : Type}.
Implicit Types (body : I → S → option S) (s : S).


Lemma for_each_ext body1 body2 (l : list I) s :
  (∀ i s', i ∈ l → body1 i s' = body2 i s') →
  for_each body1 l s = for_each body2 l s.
Proof.
  revert s. induction l as [|i l IH]; intros s Hext; simpl; [done|].
  rewrite Hext by left.
  destruct (body2 i s) as [s'|]; simpl; [|done].
  apply IH. intros j s'' Hj. apply Hext. by right.
Qed.

Lemma for_each_fmap {J : Type} (f : J → I) body (l : list J) s :
  for_each body (f <$> l) s = for_each (λ j, body (f j)) l s.
Proof.
  revert s. induction l as [|j l IH]; intros s; simpl; [done|].
  destruct (body (f j) s) as [s'|]; simpl; auto.
Qed.


(** Running the bodies of a loop in another order gives the same result
    when the bodies of different indices commute. *)
Lemma for_each_perm body (l l' : list I) :
  l ≡ₚ l' →
  NoDup l →
  (∀ i j s, i ∈ l → j ∈ l → i ≠ j →
     body i s ≫= body j = body j s ≫= body i) →
  ∀ s, for_each body l s = for_each body l' s.
Proof.
  induction 1 as [|x l l' Hp IH|x y l|l l' l'' Hp1 IH1 Hp2 IH2];
    intros Hnd Hc s.
  - done.
  - simpl. destruct (body x s) as [s'|]; simpl; [|done].
    apply IH.
    + by apply NoDup_cons in Hnd as [_ ?].
    + intros i j s0 Hi Hj. apply Hc; by right.
  - simpl.
    assert (y ≠ x) as Hne.
    { apply NoDup_cons in Hnd as [Hy _]. intros ->. apply Hy. by left. }
    pose proof (Hc y x s ltac:(left) ltac:(right; left) Hne) as Hs.
    destruct (body y s) as [s1|], (body x s) as [s2|]; simpl in *.
    + destruct (body x s1) as [s3|], (body y s2) as [s4|];
        simpl in *; congruence.
    + destruct (body x s1); simpl in *; congruence.
    + destruct (body y s2); simpl in *; congruence.
    + done.
  - rewrite IH1 by done. apply IH2.
    + by rewrite <- Hp1.
    + intros i j s0 Hi Hj. apply Hc; by rewrite Hp1.
Qed.

End ForEach.

(** ** Addressing of packed layouts *)

Lemma offset_packed_lt (L : Layout) (M N m n : nat) :
  m < M → n < N → offset (packed L (MkCoord M N)) (MkCoord m n) < M * N.
Proof. intros Hm Hn. destruct L; unfold offset; simpl; nia. Qed.

Lemma offset_packed_inj (L : Layout) (M N m n m' n' : nat) :
  m < M → n < N → m' < M → n' < N →
  offset (packed L (MkCoord M N)) (MkCoord m n)
  = offset (packed L (MkCoord M N)) (MkCoord m' n') →
  m = m' ∧ n = n'.
Proof.
  intros Hm Hn Hm' Hn'. destruct L; unfold offset; simpl; intros Heq.
  - assert (m = m') as ->; [|lia].
    destruct (Nat.lt_trichotomy m m') as [Hlt|[?|Hlt]]; [|done|].
    + pose proof (Nat.mul_le_mono_r (S m) m' N ltac:(lia)). lia.
    + pose proof (Nat.mul_le_mono_r (S m') m N ltac:(lia)). lia.
  - assert (n = n') as ->; [|lia].
    destruct (Nat.lt_trichotomy n n') as [Hlt|[?|Hlt]]; [|done|].
    + pose proof (Nat.mul_le_mono_r (S n) n' M ltac:(lia)). lia.
    + pose proof (Nat.mul_le_mono_r (S n') n M ltac:(lia)). lia.
Qed.

Lemma reverse_seq_sub (M : nat) :
  (λ m, M - 1 - m) <$> seq 0 M = reverse (seq 0 M).
Proof.
  apply list_eq. intros i.
  rewrite list_lookup_fmap.
  destruct (decide (i < M)) as [Hi|Hi].
  - rewrite lookup_seq_lt by done. simpl.
    symmetry. apply reverse_lookup_Some. rewrite length_seq.
    split; [|done]. rewrite lookup_seq_lt by lia. f_equal. lia.
  - rewrite lookup_seq_ge by lia. simpl. symmetry.
    apply lookup_ge_None. rewrite length_reverse, length_seq. lia.
Qed.

(** ** From the register state to the accumulator fragment *)

Section Fragments.
Context {ElementA ElementB ElementC : Type}.
Variable mma_op : ElementA → ElementB → ElementC → ElementC.

Local Abbreviation State := (RegState ElementA ElementB ElementC).
Implicit Types (st : State) (fa : list ElementA) (fb : list ElementB)
  (fd : list ElementC) (D A B C : loc).

Lemma put_C_id D fd st : regsC st !! D = Some fd → put_C D fd st = st.
Proof.
  intros Hfd. destruct st as [ra rb rc]; unfold put_C; simpl in *.
  f_equal. by apply insert_id.
Qed.

Lemma put_C_put_C D fd fd' st :
  put_C D fd' (put_C D fd st) = put_C D fd' st.
Proof. unfold put_C; simpl. f_equal. apply insert_insert_eq. Qed.

(** A cell update is a fragment update written back. *)
Lemma mma_cell_frag D A B (la lb lc : PackedLayout) (m n k : nat) st :
  mma_cell mma_op (MkRef D lc) (MkRef A la) (MkRef B lb) m n k st
  = on_fragments D A B
      (λ fa fb, frag_cell mma_op la lb lc fa fb m n k) st.
Proof.
  unfold mma_cell, on_fragments, frag_cell, at_A, at_B, at_C, set_at_C.
  simpl.
  destruct (regsC st !! D) as [fd|]; simpl; [|done].
  destruct (regsA st !! A) as [fa|]; simpl;
    [|by destruct (fd !! _)].
  destruct (regsB st !! B) as [fb|]; simpl;
    [|by destruct (fd !! _); simpl; [destruct (fa !! _)|]].
  destruct (fd !! offset lc (MkCoord m n)) as [d|] eqn:Hd; simpl; [|done].
  destruct (fa !! _) as [a|]; simpl; [|done].
  destruct (fb !! _) as [b|]; simpl; [|done].
  apply lookup_lt_Some in Hd. by rewrite decide_True.
Qed.

Lemma on_fragments_bind D A B
    (f g : list ElementA → list ElementB → list ElementC
           → option (list ElementC)) st :
  on_fragments D A B f st ≫= on_fragments D A B g
  = on_fragments D A B (λ fa fb fd, f fa fb fd ≫= g fa fb) st.
Proof.
  unfold on_fragments.
  destruct (regsC st !! D) as [fd|] eqn:HD; simpl; [|done].
  destruct (regsA st !! A) as [fa|] eqn:HA; simpl; [|done].
  destruct (regsB st !! B) as [fb|] eqn:HB; simpl; [|done].
  destruct (f fa fb fd) as [fd1|]; simpl; [|done].
  rewrite lookup_insert_eq, HA, HB. simpl.
  destruct (g fa fb fd1) as [fd2|]; simpl; [|done].
  by rewrite put_C_put_C.
Qed.

(** Updates of two different cells of the accumulator commute. *)
Lemma frag_cell_commute (la lb lc : PackedLayout) fa fb
    (m1 n1 k1 m2 n2 k2 : nat) fd :
  offset lc (MkCoord m1 n1) ≠ offset lc (MkCoord m2 n2) →
  frag_cell mma_op la lb lc fa fb m1 n1 k1 fd
    ≫= frag_cell mma_op la lb lc fa fb m2 n2 k2
  = frag_cell mma_op la lb lc fa fb m2 n2 k2 fd
    ≫= frag_cell mma_op la lb lc fa fb m1 n1 k1.
Proof.
  intros Hne. unfold frag_cell.
  destruct (fd !! offset lc (MkCoord m1 n1)) as [d1|] eqn:Hd1,
           (fd !! offset lc (MkCoord m2 n2)) as [d2|] eqn:Hd2; simpl.
  - destruct (fa !! offset la (MkCoord m1 k1)) as [a1|],
             (fa !! offset la (MkCoord m2 k2)) as [a2|]; simpl;
    destruct (fb !! offset lb (MkCoord k1 n1)) as [b1|],
             (fb !! offset lb (MkCoord k2 n2)) as [b2|]; simpl;
    rewrite ?list_lookup_insert_ne by done;
    rewrite ?Hd1, ?Hd2; simpl; try done.
    by rewrite list_insert_insert_ne.
  - destruct (fa !! offset la (MkCoord m1 k1)) as [a1|]; simpl; [|done].
    destruct (fb !! offset lb (MkCoord k1 n1)) as [b1|]; simpl; [|done].
    rewrite list_lookup_insert_ne by done. by rewrite Hd2.
  - destruct (fa !! offset la (MkCoord m2 k2)) as [a2|]; simpl; [|done].
    destruct (fb !! offset lb (MkCoord k2 n2)) as [b2|]; simpl; [|done].
    rewrite list_lookup_insert_ne by done. by rewrite Hd1.
  - done.
Qed.

Lemma mma_cell_commute D A B (la lb lc : PackedLayout)
    (m1 n1 k1 m2 n2 k2 : nat) st :
  offset lc (MkCoord m1 n1) ≠ offset lc (MkCoord m2 n2) →
  mma_cell mma_op (MkRef D lc) (MkRef A la) (MkRef B lb) m1 n1 k1 st
    ≫= mma_cell mma_op (MkRef D lc) (MkRef A la) (MkRef B lb) m2 n2 k2
  = mma_cell mma_op (MkRef D lc) (MkRef A la) (MkRef B lb) m2 n2 k2 st
    ≫= mma_cell mma_op (MkRef D lc) (MkRef A la) (MkRef B lb) m1 n1 k1.
Proof.
  intros Hne.
  rewrite (mma_cell_frag D A B la lb lc m1 n1 k1 st).
  rewrite (mma_cell_frag D A B la lb lc m2 n2 k2 st).
  transitivity
    (on_fragments D A B
       (λ fa fb, frag_cell mma_op la lb lc fa fb m1 n1 k1) st
     ≫= on_fragments D A B
          (λ fa fb, frag_cell mma_op la lb lc fa fb m2 n2 k2)).
  { destruct (on_fragments D A B _ st); simpl; [|done].
    apply mma_cell_frag. }
  transitivity
    (on_fragments D A B
       (λ fa fb, frag_cell mma_op la lb lc fa fb m2 n2 k2) st
     ≫= on_fragments D A B
          (λ fa fb, frag_cell mma_op la lb lc fa fb m1 n1 k1)).
  2:{ destruct (on_fragments D A B _ st); simpl; [|done].
      symmetry. apply mma_cell_frag. }
  rewrite !on_fragments_bind. unfold on_fragments.
  destruct (regsC st !! D) as [fd|]; simpl; [|done].
  destruct (regsA st !! A) as [fa|]; simpl; [|done].
  destruct (regsB st !! B) as [fb|]; simpl; [|done].
  by rewrite frag_cell_commute.
Qed.

(** A loop of fragment updates on the state is the loop on the fragment,
    written back. *)
Lemma for_each_frag {I : Type} D A B fa fb
    (body : I → State → option State)
    (f : I → list ElementC → option (list ElementC)) (l : list I) :
  (∀ i st fd, i ∈ l →
     regsA st !! A = Some fa → regsB st !! B = Some fb →
     regsC st !! D = Some fd →
     body i st = fd' ← f i fd; Some (put_C D fd' st)) →
  ∀ st fd,
    regsA st !! A = Some fa → regsB st !! B = Some fb →
    regsC st !! D = Some fd →
    for_each body l st = fd' ← for_each f l fd; Some (put_C D fd' st).
Proof.
  induction l as [|i l IH]; intros Hbody st fd HA HB HD; simpl.
  - by rewrite put_C_id.
  - rewrite (Hbody i st fd) by (done || left).
    destruct (f i fd) as [fd1|]; simpl; [|done].
    rewrite (IH (λ j st' fd' Hj, Hbody j st' fd' (list_elem_of_further _ _ _ Hj))
               (put_C D fd1 st) fd1); simpl; try done.
    + destruct (for_each f l fd1); simpl; [|done]. by rewrite put_C_put_C.
    + apply lookup_insert_eq.
Qed.
End Fragments.

(** ** Traversal order *)

Lemma even_mod_2 (n : nat) : Nat.even n = bool_decide (n `mod` 2 = 0).
Proof.
  pose proof (Nat.div_mod_eq n 2) as Hn.
  pose proof (Nat.mod_upper_bound n 2 ltac:(done)) as Hlt.
  destruct (decide (n `mod` 2 = 0)) as [H0|H0].
  - rewrite bool_decide_eq_true_2 by done.
    rewrite Hn, H0, Nat.add_0_r. apply Nat.even_even.
  - rewrite bool_decide_eq_false_2 by done.
    assert (n `mod` 2 = 1) as H1 by lia.
    rewrite Hn, H1. apply Nat.even_odd.
Qed.

Lemma row_order_serpentine (s : GemmShape) (n : nat) :
  row_order (kM s) n = m_serpentine s n <$> seq 0 (kM s).
Proof.
  unfold row_order, m_serpentine. rewrite even_mod_2.
  destruct (decide (n `mod` 2 ≠ 0)) as [H0|H0].
  - rewrite bool_decide_eq_false_2 by done.
    symmetry. apply reverse_seq_sub.
  - rewrite bool_decide_eq_true_2 by lia.
    symmetry. apply (list_fmap_id (seq 0 (kM s))).
Qed.






Section Traversal.
Context {ElementA ElementB ElementC : Type}.
Variable mma_op : ElementA → ElementB → ElementC → ElementC.
Variable Shape : GemmShape.
Variables LayoutA LayoutB LayoutC : Layout.

Local Abbreviation State := (RegState ElementA ElementB ElementC).
Local Abbreviation cell D A B :=
  (mma_cell mma_op (d_ref Shape LayoutC D) (a_ref Shape LayoutA A)
     (b_ref Shape LayoutB B)).

(** For one [k] and one [n], the rows may be taken in either direction. *)
Lemma row_loop_serpentine (D A B : loc) (n k : nat) (st : State) :
  n < kN Shape →
  for_range (kM Shape) (λ m, cell D A B (m_serpentine Shape n m) n k) st
  = for_range (kM Shape) (λ m, cell D A B m n k) st.
Proof.
  intros Hn. unfold for_range.
  rewrite <- (for_each_fmap (m_serpentine Shape n)
                (λ m, cell D A B m n k)).
  rewrite <- row_order_serpentine. unfold row_order.
  destruct (Nat.even n); [done|].
  symmetry. apply for_each_perm.
  - symmetry. apply reverse_Permutation.
  - apply NoDup_seq.
  - intros i j s Hi Hj Hne. apply elem_of_seq in Hi, Hj.
    apply mma_cell_commute. simpl. intros Heq.
    apply offset_packed_inj in Heq as [? _]; lia.
Qed.

Lemma loop_nest_serpentine_natural (D A B : loc) (st : State) :
  loop_nest Shape (cell D A B) st = loop_nest_natural Shape (cell D A B) st.
Proof.
  unfold loop_nest, loop_nest_natural, for_range at 1 2 4 5.
  apply for_each_ext. intros k st1 _.
  apply for_each_ext. intros n st2 Hn. apply elem_of_seq in Hn.
  apply row_loop_serpentine. lia.
Qed.

(** C3: the serpentine traversal of the loop nest and the natural
    row-major traversal (row index always ascending) leave the same
    register state, hence the same output fragment D, for every input and
    for every leaf instruction: the order in which the rows of one column
    are taken changes no result cell. *)
Theorem serpentine_same_as_natural (D A B C : loc) (st : State) :
  MmaGeneric_call mma_op Shape LayoutA LayoutB LayoutC D A B C st
  = MmaGeneric_call_natural mma_op Shape LayoutA LayoutB LayoutC D A B C st.
Proof.
  unfold MmaGeneric_call, MmaGeneric_call_natural.
  destruct (copy_accumulators D C st) as [st0|]; simpl; [|done].
  apply loop_nest_serpentine_natural.
Qed.

End Traversal.

(** ** What the loop nest computes *)

Lemma holds_ext {T : Type} (L : Layout) (M N : nat) (frag : list T)
    (e e' : nat → nat → T) :
  holds L M N frag e →
  (∀ m n, m < M → n < N → e m n = e' m n) →
  holds L M N frag e'.
Proof.
  intros [Hlen He] Hext. split; [done|].
  intros m n Hm Hn. rewrite He by done. f_equal. by apply Hext.
Qed.

Lemma holds_entry {T : Type} `{Inhabited T} (L : Layout) (M N : nat)
    (frag : list T) :
  length frag = M * N → holds L M N frag (entry L M N frag).
Proof.
  intros Hlen. split; [done|]. intros m n Hm Hn. unfold entry.
  apply list_lookup_lookup_total_lt. rewrite Hlen.
  by apply offset_packed_lt.
Qed.

Lemma holds_length {T : Type} (L : Layout) (M N : nat) (frag : list T)
    (e : nat → nat → T) :
  holds L M N frag e → length frag = M * N.
Proof. by intros [? _]. Qed.

(** A loop of fragment updates, each of which acts on the stored matrix as
    [step] says, acts as the iterated [step]. *)
Lemma for_each_holds {I T : Type} (L : Layout) (M N : nat)
    (f : I → list T → option (list T))
    (step : I → (nat → nat → T) → (nat → nat → T)) (l : list I) :
  (∀ i fd d, i ∈ l → holds L M N fd d →
     ∃ fd', f i fd = Some fd' ∧ holds L M N fd' (step i d)) →
  ∀ fd d, holds L M N fd d →
    ∃ fd', for_each f l fd = Some fd'
           ∧ holds L M N fd' (foldl (λ d' i, step i d') d l).
Proof.
  induction l as [|i l IH]; intros Hf fd d Hd; simpl.
  - eauto.
  - destruct (Hf i fd d) as (fd1 & -> & Hd1); [by left|done|]. simpl.
    apply IH; [|done]. intros j fd' d' Hj. apply Hf. by right.
Qed.

Section Accumulate.
Context {ElementA ElementB ElementC : Type}.
Variable mma_op : ElementA → ElementB → ElementC → ElementC.
Variable Shape : GemmShape.
Variables LayoutA LayoutB LayoutC : Layout.

Local Abbreviation State := (RegState ElementA ElementB ElementC).
Local Abbreviation M := (kM Shape).
Local Abbreviation N := (kN Shape).
Local Abbreviation K := (kK Shape).
Local Abbreviation la := (packed LayoutA (MkCoord M K)).
Local Abbreviation lb := (packed LayoutB (MkCoord K N)).
Local Abbreviation lc := (packed LayoutC (MkCoord M N)).

Variable fa : list ElementA.
Variable fb : list ElementB.
Variable a : nat → nat → ElementA.
Variable b : nat → nat → ElementB.
Hypothesis holds_a : holds LayoutA M K fa a.
Hypothesis holds_b : holds LayoutB K N fb b.

Implicit Types (d : nat → nat → ElementC) (fd : list ElementC).

(** One cell. *)
Lemma frag_cell_holds fd d (m n k : nat) :
  holds LayoutC M N fd d → m < M → n < N → k < K →
  ∃ fd',
    frag_cell mma_op la lb lc fa fb m n k fd = Some fd'
    ∧ holds LayoutC M N fd'
        (λ m' n', if decide (m' = m ∧ n' = n)
                  then mma_op (a m k) (b k n) (d m n) else d m' n').
Proof.
  intros [Hlen Hd] Hm Hn Hk. unfold frag_cell.
  destruct holds_a as [_ Ha]. destruct holds_b as [_ Hb].
  rewrite Hd, Ha, Hb by done. simpl. eexists. split; [done|].
  split; [by rewrite length_insert|].
  intros m' n' Hm' Hn'. case_decide as Heq.
  - destruct Heq as [-> ->]. apply list_lookup_insert_eq.
    rewrite Hlen. by apply offset_packed_lt.
  - rewrite list_lookup_insert_ne; [by apply Hd|].
    intros Hoff. apply offset_packed_inj in Hoff; [|done..].
    apply Heq. by destruct Hoff.
Qed.

(** One column: the rows in ascending order. *)
Lemma rows_fold d (n k j m' n' : nat) :
  foldl (λ d' m, λ m1 n1, if decide (m1 = m ∧ n1 = n)
                          then mma_op (a m k) (b k n) (d' m n)
                          else d' m1 n1) d (seq 0 j) m' n'
  = if decide (m' < j ∧ n' = n)
    then mma_op (a m' k) (b k n) (d m' n) else d m' n'.
Proof.
  revert m' n'. induction j as [|j IH]; intros m' n'.
  - cbn [seq foldl]. case_decide; [lia|done].
  - rewrite seq_S, foldl_app. cbn [foldl]. rewrite Nat.add_0_l, !IH.
    repeat case_decide; destruct_and?; subst; try done;
      exfalso; naive_solver lia.
Qed.

Lemma row_loop_holds fd d (n k : nat) :
  holds LayoutC M N fd d → n < N → k < K →
  ∃ fd',
    for_range M (λ m, frag_cell mma_op la lb lc fa fb m n k) fd = Some fd'
    ∧ holds LayoutC M N fd'
        (λ m' n', if decide (n' = n)
                  then mma_op (a m' k) (b k n') (d m' n') else d m' n').
Proof.
  intros Hd Hn Hk. unfold for_range.
  destruct (for_each_holds LayoutC M N
              (λ m, frag_cell mma_op la lb lc fa fb m n k)
              (λ m d' m1 n1, if decide (m1 = m ∧ n1 = n)
                             then mma_op (a m k) (b k n) (d' m n)
                             else d' m1 n1)
              (seq 0 M)) with fd d as (fd' & Hrun & Hfd'); [|done|].
  { intros m fd0 d0 Hm Hd0. apply elem_of_seq in Hm.
    apply frag_cell_holds; (done || lia). }
  exists fd'. split; [done|].
  eapply holds_ext; [exact Hfd'|]. intros m' n' Hm' Hn'. simpl.
  rewrite rows_fold.
  repeat case_decide; destruct_and?; subst; try done;
    exfalso; naive_solver lia.
Qed.

(** One value of [k]: the columns in ascending order. *)
Lemma columns_fold d (k j m' n' : nat) :
  foldl (λ d' n, λ m1 n1, if decide (n1 = n)
                          then mma_op (a m1 k) (b k n1) (d' m1 n1)
                          else d' m1 n1) d (seq 0 j) m' n'
  = if decide (n' < j)
    then mma_op (a m' k) (b k n') (d m' n') else d m' n'.
Proof.
  revert m' n'. induction j as [|j IH]; intros m' n'.
  - cbn [seq foldl]. case_decide; [lia|done].
  - rewrite seq_S, foldl_app. cbn [foldl]. rewrite Nat.add_0_l, !IH.
    repeat case_decide; subst; try done; exfalso; lia.
Qed.

Lemma column_loop_holds fd d (k : nat) :
  holds LayoutC M N fd d → k < K →
  ∃ fd',
    for_range N (λ n,
      for_range M (λ m, frag_cell mma_op la lb lc fa fb m n k)) fd
    = Some fd'
    ∧ holds LayoutC M N fd' (λ m' n', mma_op (a m' k) (b k n') (d m' n')).
Proof.
  intros Hd Hk. unfold for_range at 1.
  destruct (for_each_holds LayoutC M N
              (λ n, for_range M
                 (λ m, frag_cell mma_op la lb lc fa fb m n k))
              (λ n d' m1 n1, if decide (n1 = n)
                             then mma_op (a m1 k) (b k n1) (d' m1 n1)
                             else d' m1 n1)
              (seq 0 N)) with fd d as (fd' & Hrun & Hfd'); [|done|].
  { intros n fd0 d0 Hn Hd0. apply elem_of_seq in Hn.
    apply row_loop_holds; (done || lia). }
  exists fd'. split; [done|].
  eapply holds_ext; [exact Hfd'|]. intros m' n' Hm' Hn'. simpl.
  rewrite columns_fold. by rewrite decide_True.
Qed.

(** The whole nest, in the natural order. *)
Lemma accumulate_fold d (j m n : nat) :
  foldl (λ d' k, λ m1 n1, mma_op (a m1 k) (b k n1) (d' m1 n1)) d (seq 0 j)
    m n
  = accumulate_k mma_op a b d j m n.
Proof.
  unfold accumulate_k. revert m n. induction j as [|j IH]; intros m n.
  - done.
  - rewrite seq_S, !foldl_app. cbn [foldl]. by rewrite IH.
Qed.

Lemma loop_nest_natural_holds fd d :
  holds LayoutC M N fd d →
  ∃ fd',
    loop_nest_natural Shape (frag_cell mma_op la lb lc fa fb) fd = Some fd'
    ∧ holds LayoutC M N fd' (accumulate_k mma_op a b d K).
Proof.
  intros Hd. unfold loop_nest_natural, for_range at 1.
  destruct (for_each_holds LayoutC M N
              (λ k, for_range N (λ n, for_range M
                 (λ m, frag_cell mma_op la lb lc fa fb m n k)))
              (λ k d' m1 n1, mma_op (a m1 k) (b k n1) (d' m1 n1))
              (seq 0 K)) with fd d as (fd' & Hrun & Hfd'); [|done|].
  { intros k fd0 d0 Hk Hd0. apply elem_of_seq in Hk.
    apply column_loop_holds; (done || lia). }
  exists fd'. split; [done|].
  eapply holds_ext; [exact Hfd'|]. intros m n _ _.
  apply accumulate_fold.
Qed.
End Accumulate.

(** ** The accumulate routine on the register state *)

Section Call.
Context {ElementA ElementB ElementC : Type}.
Variable mma_op : ElementA → ElementB → ElementC → ElementC.
Variable Shape : GemmShape.
Variables LayoutA LayoutB LayoutC : Layout.

Local Abbreviation State := (RegState ElementA ElementB ElementC).
Local Abbreviation M := (kM Shape).
Local Abbreviation N := (kN Shape).
Local Abbreviation K := (kK Shape).
Local Abbreviation la := (packed LayoutA (MkCoord M K)).
Local Abbreviation lb := (packed LayoutB (MkCoord K N)).
Local Abbreviation lc := (packed LayoutC (MkCoord M N)).

Lemma loop_nest_natural_frag (D A B : loc) fa fb (st : State) fd :
  regsA st !! A = Some fa → regsB st !! B = Some fb →
  regsC st !! D = Some fd →
  loop_nest_natural Shape
    (mma_cell mma_op (d_ref Shape LayoutC D) (a_ref Shape LayoutA A)
       (b_ref Shape LayoutB B)) st
  = fd' ← loop_nest_natural Shape (frag_cell mma_op la lb lc fa fb) fd;
    Some (put_C D fd' st).
Proof.
  intros HA HB HD. unfold loop_nest_natural, for_range.
  apply (for_each_frag D A B fa fb); [|done..].
  intros k st1 fd1 _ HA1 HB1 HD1.
  apply (for_each_frag D A B fa fb); [|done..].
  intros n st2 fd2 _ HA2 HB2 HD2.
  apply (for_each_frag D A B fa fb); [|done..].
  intros m st3 fd3 _ HA3 HB3 HD3.
  unfold d_ref, a_ref, b_ref. rewrite mma_cell_frag.
  unfold on_fragments. by rewrite HD3, HA3, HB3.
Qed.

(** The call succeeds on fragments of the tile's sizes; it replaces the
    fragment named [D] and nothing else; the new fragment stores, in each
    cell, the accumulator of [C] run through the leaf instruction for
    [k = 0, ..., K - 1] in this order. *)
Lemma MmaGeneric_call_spec (D A B C : loc) (st : State) fa fb fc a b c :
  regsA st !! A = Some fa → regsB st !! B = Some fb →
  regsC st !! C = Some fc →
  holds LayoutA M K fa a → holds LayoutB K N fb b →
  holds LayoutC M N fc c →
  ∃ fd,
    MmaGeneric_call mma_op Shape LayoutA LayoutB LayoutC D A B C st
    = Some (put_C D fd st)
    ∧ holds LayoutC M N fd (accumulate_k mma_op a b c K).
Proof.
  intros HA HB HC Ha Hb Hc.
  destruct (loop_nest_natural_holds mma_op Shape LayoutA LayoutB LayoutC
              fa fb a b Ha Hb fc c Hc) as (fd & Hrun & Hfd).
  exists fd. split; [|done].
  unfold MmaGeneric_call, copy_accumulators. rewrite HC. simpl.
  rewrite loop_nest_serpentine_natural.
  rewrite (loop_nest_natural_frag D A B fa fb _ fc);
    [|done|done|apply lookup_insert_eq].
  rewrite Hrun. simpl. f_equal. apply (put_C_put_C D fc fd st).
Qed.
End Call.

(** ** The binary-operand specializations *)

Section Numeric.
Context {T : Type}.
Variable zero : T.
Variable add : T → T → T.
Hypothesis add_assoc : ∀ x y z, add x (add y z) = add (add x y) z.
Hypothesis add_zero_r : ∀ x, add x zero = x.

Variable Shape : GemmShape.
Variables LayoutA LayoutB LayoutC : Layout.

Local Abbreviation M := (kM Shape).
Local Abbreviation N := (kN Shape).
Local Abbreviation K := (kK Shape).

(** A running sum that skips some terms is the start value plus the sum
    of the terms, the skipped ones counted as zero. *)
Lemma foldl_predicated_add (p : nat → bool) (t : nat → T) (l : list nat)
    (x : T) :
  foldl (λ acc k, if p k then add acc (t k) else acc) x l
  = add x (foldr (λ k acc, add (if p k then t k else zero) acc) zero l).
Proof.
  revert x. induction l as [|k l IH]; intros x; simpl.
  - by rewrite add_zero_r.
  - rewrite IH. destruct (p k).
    + by rewrite add_assoc.
    + by rewrite add_assoc, add_zero_r.
Qed.

Lemma accumulate_boolA (a : nat → nat → bool) (b c : nat → nat → T)
    (j m n : nat) :
  accumulate_k (arch_Mma_boolA add) a b c j m n
  = add (c m n) (sum_over zero add j (λ k, if a m k then b k n else zero)).
Proof.
  unfold accumulate_k, sum_over, arch_Mma_boolA.
  apply (foldl_predicated_add (λ k, a m k) (λ k, b k n)).
Qed.

Lemma accumulate_boolB (a : nat → nat → T) (b : nat → nat → bool)
    (c : nat → nat → T) (j m n : nat) :
  accumulate_k (arch_Mma_boolB add) a b c j m n
  = add (c m n) (sum_over zero add j (λ k, if b k n then a m k else zero)).
Proof.
  unfold accumulate_k, sum_over, arch_Mma_boolB.
  apply (foldl_predicated_add (λ k, b k n) (λ k, a m k)).
Qed.

(** C1: for a thread tile of any extents M, N, K (in particular all
    positive ones), with a binary operand A and numeric B and C stored in
    fragments of the tile's sizes, the accumulate routine returns, and the
    fragment D it produces has, for every m < M and n < N,
    D[m,n] = C[m,n] + sum over k < K of (A[m,k] ? B[k,n] : 0).  The
    numeric values are those of any type whose addition is associative
    with 0 as right identity; D may be the same object as C. *)
Theorem MmaGeneric_boolA_correct (D A B C : loc) (st : RegState bool T T)
    (fa : list bool) (fb fc : list T)
    (a : nat → nat → bool) (b c : nat → nat → T) :
  regsA st !! A = Some fa → regsB st !! B = Some fb →
  regsC st !! C = Some fc →
  holds LayoutA M K fa a → holds LayoutB K N fb b →
  holds LayoutC M N fc c →
  ∃ fd,
    MmaGeneric_boolA_call add Shape LayoutA LayoutB LayoutC D A B C st
    = Some (put_C D fd st)
    ∧ holds LayoutC M N fd
        (λ m n, add (c m n)
                  (sum_over zero add K
                     (λ k, if a m k then b k n else zero))).
Proof.
  intros HA HB HC Ha Hb Hc.
  destruct (MmaGeneric_call_spec (arch_Mma_boolA add) Shape
              LayoutA LayoutB LayoutC D A B C st fa fb fc a b c)
    as (fd & Hcall & Hfd); [done..|].
  exists fd. split; [done|].
  eapply holds_ext; [exact Hfd|]. intros m n _ _.
  apply accumulate_boolA.
Qed.

(** C2: symmetrically, with a binary operand B and numeric A and C, the
    accumulate routine returns, and the fragment D it produces has, for
    every m < M and n < N,
    D[m,n] = C[m,n] + sum over k < K of (B[k,n] ? A[m,k] : 0). *)
Theorem MmaGeneric_boolB_correct (D A B C : loc) (st : RegState T bool T)
    (fa : list T) (fb : list bool) (fc : list T)
    (a : nat → nat → T) (b : nat → nat → bool) (c : nat → nat → T) :
  regsA st !! A = Some fa → regsB st !! B = Some fb →
  regsC st !! C = Some fc →
  holds LayoutA M K fa a → holds LayoutB K N fb b →
  holds LayoutC M N fc c →
  ∃ fd,
    MmaGeneric_boolB_call add Shape LayoutA LayoutB LayoutC D A B C st
    = Some (put_C D fd st)
    ∧ holds LayoutC M N fd
        (λ m n, add (c m n)
                  (sum_over zero add K
                     (λ k, if b k n then a m k else zero))).
Proof.
  intros HA HB HC Ha Hb Hc.
  destruct (MmaGeneric_call_spec (arch_Mma_boolB add) Shape
              LayoutA LayoutB LayoutC D A B C st fa fb fc a b c)
    as (fd & Hcall & Hfd); [done..|].
  exists fd. split; [done|].
  eapply holds_ext; [exact Hfd|]. intros m n _ _.
  apply accumulate_boolB.
Qed.

(** C7: the two dispatch wrappers only forward: on every register state
    and for every four fragment names, each wrapper's call has the very
    result of the corresponding [MmaGeneric] specialization's call, the
    same failure or the same final state. *)
Theorem Mma_forwards_to_MmaGeneric (D A B C : loc) :
  (∀ st : RegState bool T T,
     Mma_boolA_call add Shape LayoutA LayoutB LayoutC D A B C st
     = MmaGeneric_boolA_call add Shape LayoutA LayoutB LayoutC D A B C st)
  ∧ (∀ st : RegState T bool T,
       Mma_boolB_call add Shape LayoutA LayoutB LayoutC D A B C st
       = MmaGeneric_boolB_call add Shape LayoutA LayoutB LayoutC D A B C st).
Proof. split; intros st; reflexivity. Qed.
End Numeric.

(** ** A concrete tile *)

(** C8: for the thread tile M = 2, N = 2, K = 2, with the binary
    A = [[1,0],[0,1]], B = [[2,3],[4,5]] and C all zero, each stored in its
    fragment under whichever layout the operand has, the accumulate routine
    produces D = [[2,3],[4,5]]. *)
Theorem MmaGeneric_boolA_2x2x2 (LayoutA LayoutB LayoutC : Layout)
    (D A B C : loc) (st : RegState bool Z Z)
    (fa : list bool) (fb fc : list Z) :
  regsA st !! A = Some fa → regsB st !! B = Some fb →
  regsC st !! C = Some fc →
  holds LayoutA 2 2 fa (of_rows [[true; false]; [false; true]]) →
  holds LayoutB 2 2 fb (of_rows [[2; 3]; [4; 5]]%Z) →
  holds LayoutC 2 2 fc (of_rows [[0; 0]; [0; 0]]%Z) →
  ∃ fd,
    MmaGeneric_boolA_call Z.add (MkGemmShape 2 2 2) LayoutA LayoutB LayoutC
      D A B C st
    = Some (put_C D fd st)
    ∧ holds LayoutC 2 2 fd (of_rows [[2; 3]; [4; 5]]%Z).
Proof.
  intros HA HB HC Ha Hb Hc.
  destruct (MmaGeneric_call_spec (arch_Mma_boolA Z.add) (MkGemmShape 2 2 2)
              LayoutA LayoutB LayoutC D A B C st fa fb fc _ _ _
              HA HB HC Ha Hb Hc) as (fd & Hcall & Hfd).
  exists fd. split; [done|].
  eapply holds_ext; [exact Hfd|]. intros m n Hm Hn. simpl in Hm, Hn.
  destruct m as [|[|m]]; [| |lia]; (destruct n as [|[|n]]; [| |lia]);
    reflexivity.
Qed.

(** ** Frame of the accumulate routine *)

Section Frame.
Context {ElementA ElementB ElementC : Type}.
Context `{!Inhabited ElementA, !Inhabited ElementB, !Inhabited ElementC}.
Variable mma_op : ElementA → ElementB → ElementC → ElementC.
Variable Shape : GemmShape.
Variables LayoutA LayoutB LayoutC : Layout.

(** C9, amended: on fragments of the tile's sizes the call returns; the
    only change to the register state is the fragment named by D, which
    afterwards has the size M*N of C; A and B are unchanged, every
    accumulator fragment other than D is unchanged, and C is unchanged
    whenever D is a different object from C. *)
Theorem MmaGeneric_call_frame (D A B C : loc)
    (st : RegState ElementA ElementB ElementC)
    (fa : list ElementA) (fb : list ElementB) (fc : list ElementC) :
  regsA st !! A = Some fa → regsB st !! B = Some fb →
  regsC st !! C = Some fc →
  length fa = kMK Shape → length fb = kKN Shape →
  length fc = kMN Shape →
  ∃ st' fd,
    MmaGeneric_call mma_op Shape LayoutA LayoutB LayoutC D A B C st
    = Some st'
    ∧ regsA st' = regsA st
    ∧ regsB st' = regsB st
    ∧ regsC st' = <[D := fd]> (regsC st)
    ∧ length fd = kMN Shape
    ∧ length fd = length fc
    ∧ (∀ l, l ≠ D → regsC st' !! l = regsC st !! l)
    ∧ (D ≠ C → regsC st' !! C = Some fc).
Proof.
  intros HA HB HC Hla Hlb Hlc.
  destruct (MmaGeneric_call_spec mma_op Shape LayoutA LayoutB LayoutC
              D A B C st fa fb fc
              (entry LayoutA (kM Shape) (kK Shape) fa)
              (entry LayoutB (kK Shape) (kN Shape) fb)
              (entry LayoutC (kM Shape) (kN Shape) fc))
    as (fd & Hcall & Hfd); [done|done|done|by apply holds_entry..|].
  apply holds_length in Hfd.
  exists (put_C D fd st), fd. simpl.
  split_and!; try done.
  - by rewrite Hlc.
  - intros l Hl. by apply lookup_insert_ne.
  - intros HDC. by rewrite lookup_insert_ne.
Qed.
End Frame.

(** ** Warp level *)

(** C6: [transform] copies: when A and B name fragments, it returns, and
    afterwards dst_A holds the fragment of A and dst_B the fragment of B,
    element for element; A and B still hold what they held, and no other
    fragment is touched. *)
Theorem transform_identity {EA EB EC : Type} (dst_A dst_B A B : loc)
    (st : RegState EA EB EC) (fa : list EA) (fb : list EB) :
  regsA st !! A = Some fa → regsB st !! B = Some fb →
  ∃ st',
    transform dst_A dst_B A B st = Some st'
    ∧ regsA st' !! dst_A = Some fa
    ∧ regsB st' !! dst_B = Some fb
    ∧ regsA st' !! A = Some fa
    ∧ regsB st' !! B = Some fb
    ∧ (∀ l, l ≠ dst_A → regsA st' !! l = regsA st !! l)
    ∧ (∀ l, l ≠ dst_B → regsB st' !! l = regsB st !! l)
    ∧ regsC st' = regsC st.
Proof.
  intros HA HB. unfold transform. rewrite HA. simpl. rewrite HB. simpl.
  eexists. split; [done|]. simpl.
  split_and!.
  - apply lookup_insert_eq.
  - apply lookup_insert_eq.
  - destruct (decide (dst_A = A)) as [->|Hne].
    + apply lookup_insert_eq.
    + by rewrite lookup_insert_ne.
  - destruct (decide (dst_B = B)) as [->|Hne].
    + apply lookup_insert_eq.
    + by rewrite lookup_insert_ne.
  - intros l Hl. by apply lookup_insert_ne.
  - intros l Hl. by apply lookup_insert_ne.
  - done.
Qed.

(** C10: [use_dp4a] is true exactly when LayoutA is
    [ColumnMajorInterleaved<4>] or [RowMajorInterleaved<4>] and ElementA and
    ElementB are both [int8_t]; so whenever ElementA or ElementB is [bool],
    [use_dp4a] is false and [dp4a_type] is [bool]. *)
Theorem use_dp4a_spec (LayoutA : LayoutTag) (ElementA ElementB : ElementTag) :
  (use_dp4a LayoutA ElementA ElementB = true
   ↔ (LayoutA = layout_ColumnMajorInterleaved 4
      ∨ LayoutA = layout_RowMajorInterleaved 4)
     ∧ ElementA = int8_t ∧ ElementB = int8_t)
  ∧ (ElementA = bool_t ∨ ElementB = bool_t →
     use_dp4a LayoutA ElementA ElementB = false
     ∧ dp4a_type LayoutA ElementA ElementB = bool_t).
Proof.
  assert (use_dp4a LayoutA ElementA ElementB = true
          ↔ (LayoutA = layout_ColumnMajorInterleaved 4
             ∨ LayoutA = layout_RowMajorInterleaved 4)
            ∧ ElementA = int8_t ∧ ElementB = int8_t) as Hiff.
  { unfold use_dp4a, is_same.
    rewrite !andb_true_iff, orb_true_iff, !bool_decide_eq_true.
    split.
    - intros [[[<-| <-] ->] ->]; auto.
    - intros [[->| ->] [-> ->]]; auto. }
  split; [done|].
  intros Hbool. unfold dp4a_type.
  destruct (use_dp4a LayoutA ElementA ElementB); [|done].
  destruct Hiff as [Hiff _].
  destruct (Hiff eq_refl) as (_ & -> & ->). by destruct Hbool.
Qed.

(** ** Threadblock level *)

(** C5: instantiating the SIMT specialization of [SpikeMma] (operator class
    SIMT, 2 stages, no shared-memory clear) with an accumulator layout that
    is neither row-major nor the rank-2 affine layout stops at the static
    assertion; a column-major accumulator layout does. *)
Theorem SpikeMma_simt_requires_row_major (args : SpikeMmaArgs) :
  OperatorClass_ args = OpClassSimt →
  Stages args = 2 →
  AccumulatorsInRowMajor args = false →
  SharedMemoryClear args = kNone →
  LayoutC_ args ≠ layout_RowMajor →
  LayoutC_ args ≠ layout_AffineRankN 2 →
  SpikeMma args = Static_assert_failed "simt epilogue must be row major"
  ∧ SpikeMma (MkSpikeMmaArgs layout_ColumnMajor (OperatorClass_ args)
                (Stages args) (AccumulatorsInRowMajor args)
                (SharedMemoryClear args))
    = Static_assert_failed "simt epilogue must be row major".
Proof.
  intros Hop Hst Hacc Hclr Hrow Haff.
  unfold SpikeMma, simt_specialization, is_same. simpl.
  rewrite Hop, Hst, Hacc, Hclr. simpl.
  rewrite !bool_decide_eq_false_2 by done. done.
Qed.

(** ** The statements at concrete inputs *)

Lemma holds_row_major_2x2 {T : Type} `{Inhabited T} (x00 x01 x10 x11 : T) :
  holds RowMajor 2 2 [x00; x01; x10; x11] (of_rows [[x00; x01]; [x10; x11]]).
Proof.
  split; [done|]. intros m n Hm Hn.
  destruct m as [|[|m]]; [| |lia]; (destruct n as [|[|n]]; [| |lia]);
    reflexivity.
Qed.

Lemma MmaGeneric_boolA_correct_witness :
  ∃ fd,
    MmaGeneric_boolA_call Z.add (MkGemmShape 2 2 2) RowMajor RowMajor RowMajor
      0 1 2 3 example_regs_boolA
    = Some (put_C 0 fd example_regs_boolA)
    ∧ holds RowMajor 2 2 fd
        (λ m n,
           (of_rows [[0; 0]; [0; 0]] m n
            + sum_over 0 Z.add 2
                (λ k, if of_rows [[true; false]; [false; true]] m k
                      then of_rows [[2; 3]; [4; 5]] k n else 0))%Z).
Proof.
  apply (MmaGeneric_boolA_correct 0%Z Z.add Z.add_assoc Z.add_0_r
           (MkGemmShape 2 2 2) RowMajor RowMajor RowMajor 0 1 2 3
           example_regs_boolA
           [true; false; false; true] [2; 3; 4; 5]%Z [0; 0; 0; 0]%Z).
  - reflexivity.
  - reflexivity.
  - reflexivity.
  - apply holds_row_major_2x2.
  - apply holds_row_major_2x2.
  - apply holds_row_major_2x2.
Defined.

Lemma MmaGeneric_boolB_correct_witness :
  ∃ fd,
    MmaGeneric_boolB_call Z.add (MkGemmShape 2 2 2) RowMajor RowMajor RowMajor
      0 2 1 3 example_regs_boolB
    = Some (put_C 0 fd example_regs_boolB)
    ∧ holds RowMajor 2 2 fd
        (λ m n,
           (of_rows [[0; 0]; [0; 0]] m n
            + sum_over 0 Z.add 2
                (λ k, if of_rows [[true; false]; [false; true]] k n
                      then of_rows [[2; 3]; [4; 5]] m k else 0))%Z).
Proof.
  apply (MmaGeneric_boolB_correct 0%Z Z.add Z.add_assoc Z.add_0_r
           (MkGemmShape 2 2 2) RowMajor RowMajor RowMajor 0 2 1 3
           example_regs_boolB
           [2; 3; 4; 5]%Z [true; false; false; true] [0; 0; 0; 0]%Z).
  - reflexivity.
  - reflexivity.
  - reflexivity.
  - apply holds_row_major_2x2.
  - apply holds_row_major_2x2.
  - apply holds_row_major_2x2.
Defined.

Lemma MmaGeneric_boolA_2x2x2_witness :
  ∃ fd,
    MmaGeneric_boolA_call Z.add (MkGemmShape 2 2 2) RowMajor RowMajor RowMajor
      3 1 2 3 example_regs_boolA
    = Some (put_C 3 fd example_regs_boolA)
    ∧ holds RowMajor 2 2 fd (of_rows [[2; 3]; [4; 5]]%Z).
Proof.
  apply (MmaGeneric_boolA_2x2x2 RowMajor RowMajor RowMajor 3 1 2 3
           example_regs_boolA
           [true; false; false; true] [2; 3; 4; 5]%Z [0; 0; 0; 0]%Z).
  - reflexivity.
  - reflexivity.
  - reflexivity.
  - apply holds_row_major_2x2.
  - apply holds_row_major_2x2.
  - apply holds_row_major_2x2.
Defined.

Lemma MmaGeneric_call_frame_witness :
  ∃ st' fd,
    MmaGeneric_call (arch_Mma_boolA Z.add) (MkGemmShape 2 2 2)
      RowMajor RowMajor RowMajor 0 1 2 3 example_regs_boolA
    = Some st'
    ∧ regsA st' = regsA example_regs_boolA
    ∧ regsB st' = regsB example_regs_boolA
    ∧ regsC st' = <[0 := fd]> (regsC example_regs_boolA)
    ∧ length fd = 4
    ∧ length fd = length [0; 0; 0; 0]%Z
    ∧ (∀ l, l ≠ 0 → regsC st' !! l = regsC example_regs_boolA !! l)
    ∧ (0 ≠ 3 → regsC st' !! 3 = Some [0; 0; 0; 0]%Z).
Proof.
  apply (MmaGeneric_call_frame (arch_Mma_boolA Z.add) (MkGemmShape 2 2 2)
           RowMajor RowMajor RowMajor 0 1 2 3 example_regs_boolA
           [true; false; false; true] [2; 3; 4; 5]%Z [0; 0; 0; 0]%Z);
    reflexivity.
Defined.

(** C9 as stated fails when D and C name the same fragment (the in-place
    accumulate [mma(accum, a, b, accum)]): the call returns, and the
    fragment that C names has changed from zero to [[2,3],[4,5]]. *)
Lemma MmaGeneric_call_in_place_changes_C :
  regsC example_regs_boolA !! 3 = Some [0; 0; 0; 0]%Z
  ∧ ∃ st',
      MmaGeneric_boolA_call Z.add (MkGemmShape 2 2 2)
        RowMajor RowMajor RowMajor 3 1 2 3 example_regs_boolA
      = Some st'
      ∧ regsC st' !! 3 = Some [2; 3; 4; 5]%Z
      ∧ regsC st' !! 3 ≠ regsC example_regs_boolA !! 3.
Proof.
  split; [reflexivity|]. eexists. split; [reflexivity|].
  split; [reflexivity|]. discriminate.
Qed.

Lemma transform_identity_witness :
  ∃ st',
    transform 5 6 1 2 example_regs_boolA = Some st'
    ∧ regsA st' !! 5 = Some [true; false; false; true]
    ∧ regsB st' !! 6 = Some [2; 3; 4; 5]%Z
    ∧ regsA st' !! 1 = Some [true; false; false; true]
    ∧ regsB st' !! 2 = Some [2; 3; 4; 5]%Z
    ∧ (∀ l, l ≠ 5 → regsA st' !! l = regsA example_regs_boolA !! l)
    ∧ (∀ l, l ≠ 6 → regsB st' !! l = regsB example_regs_boolA !! l)
    ∧ regsC st' = regsC example_regs_boolA.
Proof.
  apply (transform_identity 5 6 1 2 example_regs_boolA); reflexivity.
Defined.

Lemma SpikeMma_simt_requires_row_major_witness :
  SpikeMma (MkSpikeMmaArgs layout_ColumnMajor OpClassSimt 2 false kNone)
  = Static_assert_failed "simt epilogue must be row major"
  ∧ SpikeMma (MkSpikeMmaArgs layout_ColumnMajor OpClassSimt 2 false kNone)
    = Static_assert_failed "simt epilogue must be row major".
Proof.
  apply (SpikeMma_simt_requires_row_major
           (MkSpikeMmaArgs layout_ColumnMajor OpClassSimt 2 false kNone));
    (reflexivity || discriminate).
Defined.

(** * Further properties of the code *)

(** ** Fragments and their addressing *)

Lemma offset_packed_surj (L : Layout) (M N i : nat) :
  i < M * N →
  ∃ m n, m < M ∧ n < N ∧ offset (packed L (MkCoord M N)) (MkCoord m n) = i.
Proof.
  intros Hi. destruct L; unfold offset; simpl.
  - assert (N ≠ 0) as HN by (intros ->; lia).
    exists (i / N), (i `mod` N). split_and!.
    + apply Nat.Div0.div_lt_upper_bound. lia.
    + by apply Nat.mod_upper_bound.
    + pose proof (Nat.div_mod_eq i N). lia.
  - assert (M ≠ 0) as HM by (intros ->; lia).
    exists (i `mod` M), (i / M). split_and!.
    + by apply Nat.mod_upper_bound.
    + apply Nat.Div0.div_lt_upper_bound. lia.
    + pose proof (Nat.div_mod_eq i M). lia.
Qed.

(** A fragment is determined by the matrix it stores. *)
Lemma holds_unique {T : Type} (L : Layout) (M N : nat) (f f' : list T)
    (e : nat → nat → T) :
  holds L M N f e → holds L M N f' e → f = f'.
Proof.
  intros [Hlen He] [Hlen' He']. apply list_eq. intros i.
  destruct (decide (i < M * N)) as [Hi|Hi].
  - destruct (offset_packed_surj L M N i Hi) as (m & n & Hm & Hn & <-).
    by rewrite He, He'.
  - rewrite !(proj2 (lookup_ge_None _ _)); [done|lia..].
Qed.

(** X1: the three tensor references that [operator()] builds with
    [Layout::packed] address the fragments [Array<ElementA, Shape::kMK>],
    [Array<ElementB, Shape::kKN>] and [Array<ElementC, Shape::kMN>] one to
    one: no access of the loop nest leaves its fragment, two cells never
    share an element, and no element of a fragment is out of reach. *)
Theorem tensor_refs_address_fragments (Shape : GemmShape)
    (LayoutA LayoutB LayoutC : Layout) (D A B : loc) :
  addresses_tile (ref_layout (a_ref Shape LayoutA A))
    (kM Shape) (kK Shape) (kMK Shape)
  ∧ addresses_tile (ref_layout (b_ref Shape LayoutB B))
      (kK Shape) (kN Shape) (kKN Shape)
  ∧ addresses_tile (ref_layout (d_ref Shape LayoutC D))
      (kM Shape) (kN Shape) (kMN Shape).
Proof.
  unfold addresses_tile, a_ref, b_ref, d_ref, kMK, kKN, kMN. simpl.
  split_and!; intros.
  all: first [by apply offset_packed_lt
             |by eapply offset_packed_inj
             |by apply offset_packed_surj].
Qed.

(** ** Cost and locality of the traversal *)




(** X3: the serpentine order keeps successive accumulator cells adjacent.
    Inside a column the row index moves by one (up for even [n], down for
    odd [n]), and the first row taken in column [n + 1] is the last row
    taken in column [n]. *)
Theorem serpentine_neighbours (Shape : GemmShape) (n m : nat) :
  (S m < kM Shape →
     (n `mod` 2 = 0 →
        m_serpentine Shape n (S m) = S (m_serpentine Shape n m))
     ∧ (n `mod` 2 ≠ 0 →
          S (m_serpentine Shape n (S m)) = m_serpentine Shape n m))
  ∧ m_serpentine Shape (S n) 0 = m_serpentine Shape n (kM Shape - 1).
Proof.
  assert (S n `mod` 2 ≠ 0 ↔ n `mod` 2 = 0) as Hpar.
  { pose proof (Nat.div_mod_eq n 2). pose proof (Nat.div_mod_eq (S n) 2).
    pose proof (Nat.mod_upper_bound n 2). pose proof (Nat.mod_upper_bound (S n) 2).
    lia. }
  unfold m_serpentine. split.
  - intros Hm. split; intros Hn.
    + by rewrite !decide_False by lia.
    + rewrite !decide_True by done. lia.
  - destruct (decide (n `mod` 2 = 0)) as [Hn|Hn].
    + rewrite decide_True by (by apply Hpar).
      rewrite decide_False by lia. lia.
    + rewrite decide_False by (rewrite Hpar; done).
      rewrite decide_True by done. lia.
Qed.

(** ** The accumulate routine as a function of its fragments *)

Lemma foldl_ext_in {A B : Type} (f g : A → B → A) (l : list B) (x : A) :
  (∀ acc y, y ∈ l → f acc y = g acc y) → foldl f x l = foldl g x l.
Proof.
  revert x. induction l as [|y l IH]; intros x Hfg; simpl; [done|].
  rewrite Hfg by left. apply IH. intros acc z Hz. apply Hfg. by right.
Qed.

Section Pure.
Context {ElementA ElementB ElementC : Type}.
Variable mma_op : ElementA → ElementB → ElementC → ElementC.
Variable Shape : GemmShape.
Variables LayoutA LayoutB LayoutC : Layout.

Local Abbreviation State := (RegState ElementA ElementB ElementC).
Local Abbreviation M := (kM Shape).
Local Abbreviation N := (kN Shape).
Local Abbreviation K := (kK Shape).
Local Abbreviation la := (packed LayoutA (MkCoord M K)).
Local Abbreviation lb := (packed LayoutB (MkCoord K N)).
Local Abbreviation lc := (packed LayoutC (MkCoord M N)).

Lemma MmaGeneric_call_frag (D A B C : loc) (st : State) fa fb fc :
  regsA st !! A = Some fa → regsB st !! B = Some fb →
  regsC st !! C = Some fc →
  MmaGeneric_call mma_op Shape LayoutA LayoutB LayoutC D A B C st
  = fd ← loop_nest_natural Shape (frag_cell mma_op la lb lc fa fb) fc;
    Some (put_C D fd st).
Proof.
  intros HA HB HC. unfold MmaGeneric_call, copy_accumulators.
  rewrite HC. simpl. rewrite loop_nest_serpentine_natural.
  rewrite (loop_nest_natural_frag mma_op Shape LayoutA LayoutB LayoutC
             D A B fa fb _ fc); [|done|done|apply lookup_insert_eq].
  destruct (loop_nest_natural _ _ fc) as [fd|]; simpl; [|done].
  f_equal. apply (put_C_put_C D fc fd st).
Qed.

(** X4: what the call writes is a function of the three fragments that A, B
    and C name, and of nothing else: in whatever register state and under
    whatever names the same three fragments are passed (D may or may not be
    C), the call fails in all cases or in none, and writes the same fragment
    to D. *)
Theorem MmaGeneric_call_is_function_of_fragments
    (fa : list ElementA) (fb : list ElementB) (fc : list ElementC) :
  ∃ result : option (list ElementC),
    ∀ (D A B C : loc) (st : State),
      regsA st !! A = Some fa → regsB st !! B = Some fb →
      regsC st !! C = Some fc →
      MmaGeneric_call mma_op Shape LayoutA LayoutB LayoutC D A B C st
      = fd ← result; Some (put_C D fd st).
Proof.
  exists (loop_nest_natural Shape (frag_cell mma_op la lb lc fa fb) fc).
  intros D A B C st HA HB HC. by apply MmaGeneric_call_frag.
Qed.

Lemma accumulate_k_ext (a a' : nat → nat → ElementA)
    (b b' : nat → nat → ElementB) (c c' : nat → nat → ElementC)
    (j m n : nat) :
  (∀ k, k < j → a m k = a' m k) → (∀ k, k < j → b k n = b' k n) →
  c m n = c' m n →
  accumulate_k mma_op a b c j m n = accumulate_k mma_op a' b' c' j m n.
Proof.
  intros Ha Hb Hc. unfold accumulate_k. rewrite Hc.
  apply foldl_ext_in. intros acc k Hk. apply elem_of_seq in Hk.
  rewrite Ha, Hb by lia. done.
Qed.

(** X5: cell (m, n) of the result depends only on row m of A, column n of B
    and cell (m, n) of C: two calls whose inputs agree there, whatever else
    they hold, return fragments with the same element in cell (m, n). *)
Theorem result_cell_depends_on_row_and_column
    (D A B C D' A' B' C' : loc) (st st' : State)
    (fa fa' : list ElementA) (fb fb' : list ElementB)
    (fc fc' : list ElementC)
    (a a' : nat → nat → ElementA) (b b' : nat → nat → ElementB)
    (c c' : nat → nat → ElementC) (m n : nat) :
  regsA st !! A = Some fa → regsB st !! B = Some fb →
  regsC st !! C = Some fc →
  regsA st' !! A' = Some fa' → regsB st' !! B' = Some fb' →
  regsC st' !! C' = Some fc' →
  holds LayoutA M K fa a → holds LayoutB K N fb b → holds LayoutC M N fc c →
  holds LayoutA M K fa' a' → holds LayoutB K N fb' b' →
  holds LayoutC M N fc' c' →
  m < M → n < N →
  (∀ k, k < K → a m k = a' m k) → (∀ k, k < K → b k n = b' k n) →
  c m n = c' m n →
  ∃ fd fd',
    MmaGeneric_call mma_op Shape LayoutA LayoutB LayoutC D A B C st
    = Some (put_C D fd st)
    ∧ MmaGeneric_call mma_op Shape LayoutA LayoutB LayoutC D' A' B' C' st'
      = Some (put_C D' fd' st')
    ∧ fd !! offset lc (MkCoord m n) = fd' !! offset lc (MkCoord m n)
    ∧ is_Some (fd !! offset lc (MkCoord m n)).
Proof.
  intros HA HB HC HA' HB' HC' Ha Hb Hc Ha' Hb' Hc' Hm Hn Hrow Hcol Hcell.
  destruct (MmaGeneric_call_spec mma_op Shape LayoutA LayoutB LayoutC
              D A B C st fa fb fc a b c) as (fd & Hcall & [_ Hfd]);
    [done..|].
  destruct (MmaGeneric_call_spec mma_op Shape LayoutA LayoutB LayoutC
              D' A' B' C' st' fa' fb' fc' a' b' c')
    as (fd' & Hcall' & [_ Hfd']); [done..|].
  exists fd, fd'. split_and!; [done|done| |].
  - rewrite Hfd, Hfd' by done. f_equal. by apply accumulate_k_ext.
  - rewrite Hfd by done. eauto.
Qed.

(** X6: a call whose leaf instruction leaves the accumulator as it is on
    every pair of scalars of the tile (for a binary operand: no bit set)
    writes to D exactly the fragment of C. *)
Theorem neutral_leaf_copies_C (D A B C : loc) (st : State)
    (fa : list ElementA) (fb : list ElementB) (fc : list ElementC)
    (a : nat → nat → ElementA) (b : nat → nat → ElementB)
    (c : nat → nat → ElementC) :
  regsA st !! A = Some fa → regsB st !! B = Some fb →
  regsC st !! C = Some fc →
  holds LayoutA M K fa a → holds LayoutB K N fb b → holds LayoutC M N fc c →
  (∀ m n k x, m < M → n < N → k < K → mma_op (a m k) (b k n) x = x) →
  MmaGeneric_call mma_op Shape LayoutA LayoutB LayoutC D A B C st
  = Some (put_C D fc st).
Proof.
  intros HA HB HC Ha Hb Hc Hneutral.
  destruct (MmaGeneric_call_spec mma_op Shape LayoutA LayoutB LayoutC
              D A B C st fa fb fc a b c) as (fd & -> & Hfd); [done..|].
  do 2 f_equal. apply (holds_unique LayoutC M N fd fc c); [|done].
  eapply holds_ext; [exact Hfd|]. intros m n Hm Hn.
  unfold accumulate_k.
  rewrite (foldl_ext_in _ (λ acc _, acc)).
  - generalize (c m n). induction (seq 0 K) as [|k l IH]; intros x; simpl; auto.
  - intros acc k Hk. apply elem_of_seq in Hk. apply Hneutral; lia.
Qed.
End Pure.

(** ** Accumulating in place over successive K tiles *)

Section SplitK.
Context {ElementA ElementB ElementC : Type}.
Variable mma_op : ElementA → ElementB → ElementC → ElementC.
Variables M N K1 K2 : nat.
Variables LayoutA LayoutB LayoutC : Layout.

Local Abbreviation State := (RegState ElementA ElementB ElementC).

Lemma accumulate_k_split (a : nat → nat → ElementA) (b : nat → nat → ElementB)
    (c : nat → nat → ElementC) (m n : nat) :
  accumulate_k mma_op a b c (K1 + K2) m n
  = accumulate_k mma_op (λ m' k, a m' (K1 + k)) (λ k n', b (K1 + k) n')
      (accumulate_k mma_op a b c K1) K2 m n.
Proof.
  unfold accumulate_k. rewrite seq_app, foldl_app.
  replace (seq (0 + K1) K2) with (Nat.add K1 <$> seq 0 K2)
    by (rewrite fmap_add_seq; f_equal; lia).
  by rewrite foldl_fmap.
Qed.

(** X7: accumulating over K in two steps is accumulating over K at once.  A
    call on the first K1 columns of A and rows of B, followed by an in-place
    call (C and D the same fragment) on the remaining K2, leaves the
    register state that one call on the whole K1 + K2 tile leaves. *)
Theorem in_place_calls_compose_over_k
    (D C A1 A2 A B1 B2 B : loc) (st : State)
    (fa1 fa2 fa : list ElementA) (fb1 fb2 fb : list ElementB)
    (fc : list ElementC)
    (a1 a2 a : nat → nat → ElementA) (b1 b2 b : nat → nat → ElementB)
    (c : nat → nat → ElementC) :
  regsA st !! A1 = Some fa1 → regsA st !! A2 = Some fa2 →
  regsA st !! A = Some fa →
  regsB st !! B1 = Some fb1 → regsB st !! B2 = Some fb2 →
  regsB st !! B = Some fb →
  regsC st !! C = Some fc →
  holds LayoutA M K1 fa1 a1 → holds LayoutA M K2 fa2 a2 →
  holds LayoutA M (K1 + K2) fa a →
  holds LayoutB K1 N fb1 b1 → holds LayoutB K2 N fb2 b2 →
  holds LayoutB (K1 + K2) N fb b →
  holds LayoutC M N fc c →
  (∀ m k, m < M → k < K1 → a m k = a1 m k) →
  (∀ m k, m < M → k < K2 → a m (K1 + k) = a2 m k) →
  (∀ k n, k < K1 → n < N → b k n = b1 k n) →
  (∀ k n, k < K2 → n < N → b (K1 + k) n = b2 k n) →
  MmaGeneric_call mma_op (MkGemmShape M N K1) LayoutA LayoutB LayoutC
    D A1 B1 C st
    ≫= MmaGeneric_call mma_op (MkGemmShape M N K2) LayoutA LayoutB LayoutC
         D A2 B2 D
  = MmaGeneric_call mma_op (MkGemmShape M N (K1 + K2))
      LayoutA LayoutB LayoutC D A B C st
  ∧ is_Some (MmaGeneric_call mma_op (MkGemmShape M N (K1 + K2))
               LayoutA LayoutB LayoutC D A B C st).
Proof.
  intros HA1 HA2 HA HB1 HB2 HB HC Ha1 Ha2 Ha Hb1 Hb2 Hb Hc
    Haa1 Haa2 Hbb1 Hbb2.
  destruct (MmaGeneric_call_spec mma_op (MkGemmShape M N K1)
              LayoutA LayoutB LayoutC D A1 B1 C st fa1 fb1 fc a1 b1 c)
    as (fd1 & -> & Hfd1); [done..|].
  simpl.
  destruct (MmaGeneric_call_spec mma_op (MkGemmShape M N K2)
              LayoutA LayoutB LayoutC D A2 B2 D (put_C D fd1 st)
              fa2 fb2 fd1 a2 b2 (accumulate_k mma_op a1 b1 c K1))
    as (fd2 & -> & Hfd2); [done|done|apply lookup_insert_eq|done..|].
  destruct (MmaGeneric_call_spec mma_op (MkGemmShape M N (K1 + K2))
              LayoutA LayoutB LayoutC D A B C st fa fb fc a b c)
    as (fd & -> & Hfd); [done..|].
  split; [|eauto]. rewrite put_C_put_C. do 2 f_equal.
  simpl in Hfd, Hfd2.
  apply (holds_unique LayoutC M N fd2 fd
           (accumulate_k mma_op a b c (K1 + K2))); [|done].
  eapply holds_ext; [exact Hfd2|]. intros m n Hm Hn. simpl.
  rewrite accumulate_k_split. apply accumulate_k_ext.
  - intros k Hk. symmetry. by apply Haa2.
  - intros k Hk. symmetry. by apply Hbb2.
  - apply accumulate_k_ext; [|by intros; symmetry; apply Hbb1|done].
    intros k Hk. symmetry. by apply Haa1.
Qed.
End SplitK.

(** ** The warp-level accumulate *)

Section WarpCall.
Context {ElementA ElementB ElementC : Type}.
Variable mma_op : ElementA → ElementB → ElementC → ElementC.
Variable conj_a : list ElementA → list ElementA.
Variable conj_b : list ElementB → list ElementB.
Variable Shape : GemmShape.
Variable Policy : MmaSimtPolicy.
Variables LayoutA LayoutB LayoutC : LayoutTag.
Variables kTransformA kTransformB : ComplexTransform.

Local Abbreviation State := (RegState ElementA ElementB ElementC).
Local Abbreviation M := (kM (ThreadMmaShape Shape Policy)).
Local Abbreviation N := (kN (ThreadMmaShape Shape Policy)).
Local Abbreviation K := (kK (ThreadMmaShape Shape Policy)).

Lemma fresh_lookup_None {V : Type} (m : gmap loc V) :
  m !! fresh (dom m) = None.
Proof. apply not_elem_of_dom_1, is_fresh. Qed.

(** X8: the warp-level call accumulates one thread tile.  With [a] and [b]
    (conjugated when the transform asks for it) storing the operands of the
    thread tile and [c] naming the accumulator, the call returns; it writes
    to [d] the fragment the thread-level routine computes; and it leaves
    every other fragment of the register state as it was, the by-value
    copies of [a] and [b] being gone.  [group_idx] plays no part. *)
Theorem SpikeMmaSimt_call_accumulates (d c : loc) (a : list ElementA)
    (b : list ElementB) (group_idx : Z) (st : State)
    (la lb lc : Layout) (fc : list ElementC)
    (ea : nat → nat → ElementA) (eb : nat → nat → ElementB)
    (ec : nat → nat → ElementC) :
  thread_addressing (ThreadLayoutA LayoutA) = Some la →
  thread_addressing (ThreadLayoutB LayoutB) = Some lb →
  thread_addressing LayoutC = Some lc →
  regsC st !! c = Some fc →
  holds la M K
    (if decide (kTransformA = ComplexTransform_kConjugate)
     then conj_a a else a) ea →
  holds lb K N
    (if decide (kTransformB = ComplexTransform_kConjugate)
     then conj_b b else b) eb →
  holds lc M N fc ec →
  ∃ fd,
    SpikeMmaSimt_call mma_op conj_a conj_b Shape Policy
      LayoutA LayoutB LayoutC kTransformA kTransformB d a b c group_idx st
    = Some (put_C d fd st)
    ∧ holds lc M N fd (accumulate_k mma_op ea eb ec K).
Proof.
  intros Hla Hlb Hlc HC Ha Hb Hc.
  unfold SpikeMmaSimt_call. rewrite Hla, Hlb, Hlc. simpl.
  unfold Mma_call.
  set (a' := if decide (kTransformA = ComplexTransform_kConjugate)
             then conj_a a else a) in *.
  set (b' := if decide (kTransformB = ComplexTransform_kConjugate)
             then conj_b b else b) in *.
  set (st1 := MkRegs (<[fresh (dom (regsA st)) := a']> (regsA st))
                     (<[fresh (dom (regsB st)) := b']> (regsB st))
                     (regsC st)).
  destruct (MmaGeneric_call_spec mma_op (ThreadMmaShape Shape Policy)
              la lb lc d (fresh (dom (regsA st))) (fresh (dom (regsB st)))
              c st1 a' b' fc ea eb ec) as (fd & -> & Hfd);
    [apply lookup_insert_eq|apply lookup_insert_eq|done..|].
  exists fd. split; [|done]. simpl. unfold put_C. f_equal. f_equal.
  - apply delete_insert_id, fresh_lookup_None.
  - apply delete_insert_id, fresh_lookup_None.
Qed.
End WarpCall.

(** X10: the thread tile is the warp tile divided by the policy's warp shape,
    rounded down: along each axis the thread tiles of all lanes cover the
    warp tile up to the remainder of the division, and cover it exactly when
    the policy divides the warp tile. *)
Theorem ThreadMmaShape_covers (Shape : GemmShape) (Policy : MmaSimtPolicy) :
  WarpShape_kRow Policy ≠ 0 → WarpShape_kColumn Policy ≠ 0 →
  kM (ThreadMmaShape Shape Policy) * WarpShape_kRow Policy
    + kM Shape `mod` WarpShape_kRow Policy = kM Shape
  ∧ kN (ThreadMmaShape Shape Policy) * WarpShape_kColumn Policy
      + kN Shape `mod` WarpShape_kColumn Policy = kN Shape
  ∧ kK (ThreadMmaShape Shape Policy) = kK (LaneMmaShape Policy)
  ∧ (kM Shape `mod` WarpShape_kRow Policy = 0 →
     kN Shape `mod` WarpShape_kColumn Policy = 0 →
     kMN (ThreadMmaShape Shape Policy)
       * (WarpShape_kRow Policy * WarpShape_kColumn Policy)
     = kMN Shape).
Proof.
  intros Hrow Hcol. unfold ThreadMmaShape, kMN. simpl.
  pose proof (Nat.div_mod_eq (kM Shape) (WarpShape_kRow Policy)) as HM.
  pose proof (Nat.div_mod_eq (kN Shape) (WarpShape_kColumn Policy)) as HN.
  split_and!; [lia|lia|done|].
  intros HM0 HN0. rewrite HM0 in HM. rewrite HN0 in HN.
  remember (kM Shape / WarpShape_kRow Policy) as x.
  remember (kN Shape / WarpShape_kColumn Policy) as y.
  rewrite HM, HN. nia.
Qed.

(** X11: [transform] run a second time changes nothing, and [transform] onto
    its own sources changes nothing at all. *)
Theorem transform_idempotent {EA EB EC : Type} (dst_A dst_B A B : loc)
    (st : RegState EA EB EC) :
  (∀ st', transform dst_A dst_B A B st = Some st' →
          transform dst_A dst_B A B st' = Some st')
  ∧ (is_Some (regsA st !! A) → is_Some (regsB st !! B) →
     transform A B A B st = Some st).
Proof.
  split.
  - unfold transform. intros st' Hst'.
    destruct (regsA st !! A) as [fa|] eqn:HA; simpl in *; [|done].
    destruct (regsB st !! B) as [fb|] eqn:HB; simpl in *; [|done].
    injection Hst' as <-. simpl.
    assert (<[dst_A:=fa]> (regsA st) !! A = Some fa) as ->.
    { destruct (decide (dst_A = A)) as [->|?];
        [apply lookup_insert_eq|by rewrite lookup_insert_ne]. }
    simpl.
    assert (<[dst_B:=fb]> (regsB st) !! B = Some fb) as ->.
    { destruct (decide (dst_B = B)) as [->|?];
        [apply lookup_insert_eq|by rewrite lookup_insert_ne]. }
    simpl. by rewrite !insert_insert_eq.
  - intros [fa HA] [fb HB]. unfold transform. rewrite HA. simpl.
    rewrite HB. simpl. destruct st as [ra rb rc]. simpl in *.
    by rewrite !insert_id.
Qed.

(** X12: the thread-level layouts [ThreadLayoutA] and [ThreadLayoutB] are
    never one of the two 4-interleaved layouts; computing them again changes
    nothing; and whenever [use_dp4a] holds, [ThreadLayoutA] is plain
    column-major or row-major. *)
Theorem ThreadLayout_never_interleaved_4 (L : LayoutTag)
    (ElementA ElementB : ElementTag) :
  ThreadLayoutA L ≠ layout_ColumnMajorInterleaved 4
  ∧ ThreadLayoutA L ≠ layout_RowMajorInterleaved 4
  ∧ ThreadLayoutB L ≠ layout_ColumnMajorInterleaved 4
  ∧ ThreadLayoutB L ≠ layout_RowMajorInterleaved 4
  ∧ ThreadLayoutA (ThreadLayoutA L) = ThreadLayoutA L
  ∧ ThreadLayoutB (ThreadLayoutB L) = ThreadLayoutB L
  ∧ (use_dp4a L ElementA ElementB = true →
     ThreadLayoutA L = layout_ColumnMajor ∨ ThreadLayoutA L = layout_RowMajor).
Proof.
  unfold ThreadLayoutA, ThreadLayoutB, use_dp4a, is_same.
  destruct (decide (layout_ColumnMajorInterleaved 4 = L)) as [<-|Hc].
  { rewrite !bool_decide_eq_true_2 by done. simpl.
    split_and!; try done. by left. }
  rewrite (bool_decide_eq_false_2 (layout_ColumnMajorInterleaved 4 = L))
    by done.
  destruct (decide (layout_RowMajorInterleaved 4 = L)) as [<-|Hr].
  { rewrite !bool_decide_eq_true_2 by done. simpl.
    split_and!; try done. by right. }
  rewrite (bool_decide_eq_false_2 (layout_RowMajorInterleaved 4 = L))
    by done.
  rewrite !(bool_decide_eq_false_2 (layout_ColumnMajorInterleaved 4 = L))
    by done.
  rewrite !(bool_decide_eq_false_2 (layout_RowMajorInterleaved 4 = L))
    by done.
  simpl. split_and!; try done; by intros ->.
Qed.

(** X13: which instantiations of [SpikeMma] this file defines.  The
    instantiation reaches the assembly of its components exactly for
    operator class SIMT, 2 stages, accumulators not in row-major,
    no shared-memory clear and an accumulator layout that is row-major or
    rank-2 affine; for any other operator class, stage count, clear option
    or for [AccumulatorsInRowMajor = true] only the undefined primary
    template is left. *)
Theorem SpikeMma_defined_instantiations (args : SpikeMmaArgs) :
  (SpikeMma args = Assembled
   ↔ OperatorClass_ args = OpClassSimt ∧ Stages args = 2
     ∧ AccumulatorsInRowMajor args = false ∧ SharedMemoryClear args = kNone
     ∧ (LayoutC_ args = layout_RowMajor
        ∨ LayoutC_ args = layout_AffineRankN 2))
  ∧ (SpikeMma args = Undefined_primary_template
     ↔ ¬ (OperatorClass_ args = OpClassSimt ∧ Stages args = 2
          ∧ AccumulatorsInRowMajor args = false
          ∧ SharedMemoryClear args = kNone)).
Proof.
  assert (simt_specialization args = true
          ↔ OperatorClass_ args = OpClassSimt ∧ Stages args = 2
            ∧ AccumulatorsInRowMajor args = false
            ∧ SharedMemoryClear args = kNone) as Hspec.
  { unfold simt_specialization, is_same.
    rewrite !andb_true_iff, !bool_decide_eq_true, negb_true_iff. tauto. }
  unfold SpikeMma.
  destruct (simt_specialization args).
  - destruct Hspec as [Hspec _]. specialize (Hspec eq_refl).
    unfold is_same.
    destruct (decide (LayoutC_ args = layout_RowMajor)) as [Hr|Hr];
      [rewrite (bool_decide_eq_true_2 _ Hr)
      |rewrite (bool_decide_eq_false_2 _ Hr)]; simpl.
    { split; [tauto|]. split; [done|tauto]. }
    destruct (decide (LayoutC_ args = layout_AffineRankN 2)) as [Ha|Ha];
      [rewrite (bool_decide_eq_true_2 _ Ha)
      |rewrite (bool_decide_eq_false_2 _ Ha)]; simpl.
    + split; [tauto|]. split; [done|tauto].
    + split; split; try done; tauto.
  - split; split; try done.
    + intros H. destruct Hspec as [_ Hspec].
      assert (false = true) by (apply Hspec; tauto). done.
    + intros _ H. destruct Hspec as [_ Hspec].
      assert (false = true) by (by apply Hspec). done.
Qed.

(** ** The further properties at concrete inputs *)

Ltac small_tile m n :=
  destruct m as [|[|m]]; destruct n as [|[|n]]; first [reflexivity | lia].

Lemma holds_row_major_2x1 {T : Type} `{Inhabited T} (x0 x1 : T) :
  holds RowMajor 2 1 [x0; x1] (of_rows [[x0]; [x1]]).
Proof. split; [done|]. intros m n Hm Hn. small_tile m n. Qed.

Lemma holds_row_major_1x2 {T : Type} `{Inhabited T} (x0 x1 : T) :
  holds RowMajor 1 2 [x0; x1] (of_rows [[x0; x1]]).
Proof. split; [done|]. intros m n Hm Hn. small_tile m n. Qed.

Lemma result_cell_depends_on_row_and_column_witness :
  ∃ fd fd',
    MmaGeneric_call (arch_Mma_boolA Z.add) (MkGemmShape 2 2 2)
      RowMajor RowMajor RowMajor 0 1 2 3 example_regs_boolA
    = Some (put_C 0 fd example_regs_boolA)
    ∧ MmaGeneric_call (arch_Mma_boolA Z.add) (MkGemmShape 2 2 2)
        RowMajor RowMajor RowMajor 3 1 2 3 example_regs_other
      = Some (put_C 3 fd' example_regs_other)
    ∧ fd !! offset (packed RowMajor (MkCoord 2 2)) (MkCoord 0 0)
      = fd' !! offset (packed RowMajor (MkCoord 2 2)) (MkCoord 0 0)
    ∧ is_Some (fd !! offset (packed RowMajor (MkCoord 2 2)) (MkCoord 0 0)).
Proof.
  apply (result_cell_depends_on_row_and_column (arch_Mma_boolA Z.add)
           (MkGemmShape 2 2 2) RowMajor RowMajor RowMajor
           0 1 2 3 3 1 2 3 example_regs_boolA example_regs_other
           [true; false; false; true] [true; false; true; true]
           [2; 3; 4; 5]%Z [2; 7; 4; 8]%Z [0; 0; 0; 0]%Z [0; 5; 6; 7]%Z
           (of_rows [[true; false]; [false; true]])
           (of_rows [[true; false]; [true; true]])
           (of_rows [[2; 3]; [4; 5]]%Z) (of_rows [[2; 7]; [4; 8]]%Z)
           (of_rows [[0; 0]; [0; 0]]%Z) (of_rows [[0; 5]; [6; 7]]%Z) 0 0).
  1-6: reflexivity.
  1-6: apply holds_row_major_2x2.
  - simpl. lia.
  - simpl. lia.
  - intros k Hk. simpl in Hk. destruct k as [|[|k]]; first [reflexivity | lia].
  - intros k Hk. simpl in Hk. destruct k as [|[|k]]; first [reflexivity | lia].
  - reflexivity.
Defined.

Lemma neutral_leaf_copies_C_witness :
  MmaGeneric_call (arch_Mma_boolA Z.add) (MkGemmShape 2 2 2)
    RowMajor RowMajor RowMajor 0 1 2 3 example_regs_no_spike
  = Some (put_C 0 [1; 2; 3; 4]%Z example_regs_no_spike).
Proof.
  apply (neutral_leaf_copies_C (arch_Mma_boolA Z.add) (MkGemmShape 2 2 2)
           RowMajor RowMajor RowMajor 0 1 2 3 example_regs_no_spike
           [false; false; false; false] [2; 3; 4; 5]%Z [1; 2; 3; 4]%Z
           (of_rows [[false; false]; [false; false]])
           (of_rows [[2; 3]; [4; 5]]%Z) (of_rows [[1; 2]; [3; 4]]%Z)).
  1-3: reflexivity.
  1-3: apply holds_row_major_2x2.
  intros m n k x Hm Hn Hk. simpl in Hm, Hk.
  destruct m as [|[|m]]; destruct k as [|[|k]]; first [reflexivity | lia].
Defined.

Lemma in_place_calls_compose_over_k_witness :
  MmaGeneric_call (arch_Mma_boolA Z.add) (MkGemmShape 2 2 1)
    RowMajor RowMajor RowMajor 0 4 6 3 example_regs_split
    ≫= MmaGeneric_call (arch_Mma_boolA Z.add) (MkGemmShape 2 2 1)
         RowMajor RowMajor RowMajor 0 5 7 0
  = MmaGeneric_call (arch_Mma_boolA Z.add) (MkGemmShape 2 2 (1 + 1))
      RowMajor RowMajor RowMajor 0 1 2 3 example_regs_split
  ∧ is_Some (MmaGeneric_call (arch_Mma_boolA Z.add)
               (MkGemmShape 2 2 (1 + 1))
               RowMajor RowMajor RowMajor 0 1 2 3 example_regs_split).
Proof.
  apply (in_place_calls_compose_over_k (arch_Mma_boolA Z.add) 2 2 1 1
           RowMajor RowMajor RowMajor 0 3 4 5 1 6 7 2 example_regs_split
           [true; false] [false; true] [true; false; false; true]
           [2; 3]%Z [4; 5]%Z [2; 3; 4; 5]%Z [0; 0; 0; 0]%Z
           (of_rows [[true]; [false]]) (of_rows [[false]; [true]])
           (of_rows [[true; false]; [false; true]])
           (of_rows [[2; 3]]%Z) (of_rows [[4; 5]]%Z)
           (of_rows [[2; 3]; [4; 5]]%Z) (of_rows [[0; 0]; [0; 0]]%Z)).
  1-7: reflexivity.
  - apply holds_row_major_2x1.
  - apply holds_row_major_2x1.
  - apply (holds_row_major_2x2 true false false true).
  - apply holds_row_major_1x2.
  - apply holds_row_major_1x2.
  - apply (holds_row_major_2x2 2 3 4 5)%Z.
  - apply holds_row_major_2x2.
  - intros m k Hm Hk. small_tile m k.
  - intros m k Hm Hk. small_tile m k.
  - intros k n Hk Hn. small_tile k n.
  - intros k n Hk Hn. small_tile k n.
Defined.

Lemma SpikeMmaSimt_call_accumulates_witness :
  ∃ fd,
    SpikeMmaSimt_call (arch_Mma_boolA Z.add) id id (MkGemmShape 4 4 8)
      (MkPolicy 2 2 (MkGemmShape 2 2 2))
      (layout_RowMajorInterleaved 4) layout_RowMajor layout_RowMajor
      ComplexTransform_kNone ComplexTransform_kNone
      3 [true; false; false; true] [2; 3; 4; 5]%Z 3 0%Z example_regs_boolA
    = Some (put_C 3 fd example_regs_boolA)
    ∧ holds RowMajor 2 2 fd
        (accumulate_k (arch_Mma_boolA Z.add)
           (of_rows [[true; false]; [false; true]])
           (of_rows [[2; 3]; [4; 5]]%Z) (of_rows [[0; 0]; [0; 0]]%Z) 2).
Proof.
  apply (SpikeMmaSimt_call_accumulates (arch_Mma_boolA Z.add) id id
           (MkGemmShape 4 4 8) (MkPolicy 2 2 (MkGemmShape 2 2 2))
           (layout_RowMajorInterleaved 4) layout_RowMajor layout_RowMajor
           ComplexTransform_kNone ComplexTransform_kNone
           3 3 [true; false; false; true] [2; 3; 4; 5]%Z 0%Z
           example_regs_boolA RowMajor RowMajor RowMajor [0; 0; 0; 0]%Z).
  1-4: reflexivity.
  1-3: apply holds_row_major_2x2.
Defined.

Lemma ThreadMmaShape_covers_witness :
  kM (ThreadMmaShape (MkGemmShape 32 64 8) (MkPolicy 4 8 (MkGemmShape 4 4 1)))
    * 4 + 32 `mod` 4 = 32
  ∧ kN (ThreadMmaShape (MkGemmShape 32 64 8)
          (MkPolicy 4 8 (MkGemmShape 4 4 1))) * 8 + 64 `mod` 8 = 64
  ∧ kK (ThreadMmaShape (MkGemmShape 32 64 8)
          (MkPolicy 4 8 (MkGemmShape 4 4 1))) = 1
  ∧ (32 `mod` 4 = 0 → 64 `mod` 8 = 0 →
     kMN (ThreadMmaShape (MkGemmShape 32 64 8)
            (MkPolicy 4 8 (MkGemmShape 4 4 1))) * (4 * 8)
     = kMN (MkGemmShape 32 64 8)).
Proof.
  apply (ThreadMmaShape_covers (MkGemmShape 32 64 8)
           (MkPolicy 4 8 (MkGemmShape 4 4 1))); discriminate.
Defined.

(** X9: for operands on which the framework's conjugation is the identity
    (real and binary ones), the warp-level call does not depend on the two
    complex-transform arguments. *)
Theorem SpikeMmaSimt_call_ignores_transform_of_reals
    {ElementA ElementB ElementC : Type}
    (mma_op : ElementA → ElementB → ElementC → ElementC)
    (conj_a : list ElementA → list ElementA)
    (conj_b : list ElementB → list ElementB)
    (Shape : GemmShape) (Policy : MmaSimtPolicy)
    (LayoutA LayoutB LayoutC : LayoutTag)
    (kTransformA kTransformB : ComplexTransform)
    (d c : loc) (a : list ElementA) (b : list ElementB) (group_idx : Z)
    (st : RegState ElementA ElementB ElementC) :
  conj_a a = a → conj_b b = b →
  SpikeMmaSimt_call mma_op conj_a conj_b Shape Policy
    LayoutA LayoutB LayoutC kTransformA kTransformB d a b c group_idx st
  = SpikeMmaSimt_call mma_op conj_a conj_b Shape Policy
      LayoutA LayoutB LayoutC ComplexTransform_kNone ComplexTransform_kNone
      d a b c group_idx st.
Proof.
  intros Ha Hb. unfold SpikeMmaSimt_call.
  destruct (decide (kTransformA = ComplexTransform_kConjugate));
    destruct (decide (kTransformB = ComplexTransform_kConjugate));
    rewrite ?Ha, ?Hb; reflexivity.
Qed.

Lemma SpikeMmaSimt_call_ignores_transform_of_reals_witness :
  SpikeMmaSimt_call (arch_Mma_boolA Z.add) id id (MkGemmShape 4 4 8)
    (MkPolicy 2 2 (MkGemmShape 2 2 2))
    layout_RowMajor layout_RowMajor layout_RowMajor
    ComplexTransform_kConjugate ComplexTransform_kConjugate
    3 [true; false; false; true] [2; 3; 4; 5]%Z 3 0%Z example_regs_boolA
  = SpikeMmaSimt_call (arch_Mma_boolA Z.add) id id (MkGemmShape 4 4 8)
      (MkPolicy 2 2 (MkGemmShape 2 2 2))
      layout_RowMajor layout_RowMajor layout_RowMajor
      ComplexTransform_kNone ComplexTransform_kNone
      3 [true; false; false; true] [2; 3; 4; 5]%Z 3 0%Z example_regs_boolA.
Proof.
  apply (SpikeMmaSimt_call_ignores_transform_of_reals
           (arch_Mma_boolA Z.add) id id); reflexivity.
Defined.
